(** * jfsoplog: the operation-log analyzer of [log_analyzer.py]

    A shallow embedding of [src/loganalysis/log_analyzer.py]: the line
    parser [parse_log_line], the handle/inode counters of
    [analyze_io_behavior], the access-pattern classifier
    [analyze_access_pattern] and the record-stream builder with the
    empty-input guard of [analyze_log].

    Conventions of the embedding.
    - Text is [string] over 8-bit characters.  The character classes
      of the regular expressions ([\d], [\w], whitespace) are the ASCII
      ones; characters above 127 belong to none of them.
    - A Python [dict] record with optional keys is a Coq record whose
      optional fields are [option]s: [None] is "key absent".  A value
      that may itself be Python's [None] is a [pyval].
    - [int] is [Z].  [float(duration)] is kept as the exact rational
      the decimal literal denotes.  The two percentages, which the
      source compares with [70] and [30], are binary64 floats
      ([PrimFloat]), computed with the operations of the source.
    - [ValueError] in the parser is an explicit [Raise]; in the
      analyses a [KeyError] on a missing key is [None]. *)

From Stdlib Require Import Ascii Floats Uint63 ZArith QArith DecimalString.
From stdpp Require Import gmap strings list sorting.

Local Open Scope Z_scope.

(** ** Exceptions *)

Inductive exn := ValueError | KeyError.

Inductive result (A : Type) :=
| Ok (a : A)
| Raise (e : exn).
Arguments Ok {A} a.
Arguments Raise {A} e.

Definition rbind {A B} (m : result A) (k : A -> result B) : result B :=
  match m with
  | Ok a => k a
  | Raise e => Raise e
  end.

Notation "'try' x ':=' m 'in' k" := (rbind m (fun x => k))
  (at level 10, x name, m at level 100, k at level 200).

(** ** Characters and Python string helpers *)

Module Py.

Definition code (c : ascii) : N := N_of_ascii c.

Definition is_digit (c : ascii) : bool :=
  (48 <=? code c)%N && (code c <=? 57)%N.

Definition is_alpha (c : ascii) : bool :=
  ((65 <=? code c)%N && (code c <=? 90)%N) ||
  ((97 <=? code c)%N && (code c <=? 122)%N).

(** [\w] *)
Definition is_word (c : ascii) : bool :=
  is_digit c || is_alpha c || (code c =? 95)%N.

(** [str.isspace] on one character: TAB, LF, VT, FF, CR, FS, GS, RS,
    US and the space. *)
Definition is_space (c : ascii) : bool :=
  ((9 <=? code c)%N && (code c <=? 13)%N) ||
  ((28 <=? code c)%N && (code c <=? 32)%N).

Definition is_newline (c : ascii) : bool := (code c =? 10)%N.

Definition digit_val (c : ascii) : Z := Z.of_N (code c) - 48.

Definition is_empty (s : string) : bool :=
  match s with
  | EmptyString => true
  | String _ _ => false
  end.

Fixpoint lstrip (s : string) : string :=
  match s with
  | EmptyString => EmptyString
  | String c r => if is_space c then lstrip r else s
  end.

Fixpoint rstrip (s : string) : string :=
  match s with
  | EmptyString => EmptyString
  | String c r =>
      let r' := rstrip r in
      if is_space c && is_empty r' then EmptyString else String c r'
  end.

(** [s.strip()] *)
Definition strip (s : string) : string := rstrip (lstrip s).

(** [s.split(',')]: never empty, one more piece than there are commas. *)
Fixpoint split_comma (s : string) : list string :=
  match s with
  | EmptyString => [EmptyString]
  | String c r =>
      if (code c =? 44)%N then EmptyString :: split_comma r
      else match split_comma r with
           | [] => [String c EmptyString]
           | p :: ps => String c p :: ps
           end
  end.

Fixpoint all_chars (p : ascii -> bool) (s : string) : bool :=
  match s with
  | EmptyString => true
  | String c r => p c && all_chars p r
  end.

(** [s.isdigit()] *)
Definition isdigit (s : string) : bool :=
  negb (is_empty s) && all_chars is_digit s.

(** The digits of a decimal literal: groups of digits separated by
    single underscores.  [prev] tells whether the previous character
    was a digit. *)
Fixpoint int_digits (acc : Z) (prev : bool) (s : string) : option Z :=
  match s with
  | EmptyString => if prev then Some acc else None
  | String c r =>
      if is_digit c then int_digits (10 * acc + digit_val c) true r
      else if (code c =? 95)%N && prev then int_digits acc false r
      else None
  end.

(** [int(s)] for a [str]: surrounding whitespace, an optional sign,
    then the digits. *)
Definition int (s : string) : result Z :=
  let body (neg : bool) (r : string) :=
    match int_digits 0 false r with
    | Some z => Ok (if neg then - z else z)
    | None => Raise ValueError
    end in
  match strip s with
  | String c r =>
      if (code c =? 45)%N then body true r
      else if (code c =? 43)%N then body false r
      else body false (String c r)
  | EmptyString => Raise ValueError
  end.

(** [float(s)] on the strings the duration group [[\d.]+] can hold:
    digits with at most one point and at least one digit.  [seen]
    tells whether the point was met, [nd] counts the digits, [num] is
    the digits read as an integer and [den] the power of ten of the
    fractional part. *)
Fixpoint float_digits (num : Z) (den : positive) (seen : bool) (nd : nat)
    (s : string) : option Q :=
  match s with
  | EmptyString => if (0 <? nd)%nat then Some (Qmake num den) else None
  | String c r =>
      if is_digit c then
        float_digits (10 * num + digit_val c)
          (if seen then (10 * den)%positive else den) seen (S nd) r
      else if (code c =? 46)%N && negb seen then float_digits num den true nd r
      else None
  end.

Definition float (s : string) : result Q :=
  match float_digits 0 1 false 0 s with
  | Some q => Ok q
  | None => Raise ValueError
  end.

End Py.

(** ** The line grammar

    [pattern] of [parse_log_line] is
    [(\d{4}\.\d{2}\.\d{2} \d{2}:\d{2}:\d{2}\.\d+) \[uid:(\d+),gid:(\d+),pid:(\d+)\] (\w+) \(([^)]+)\): OK(.*?) <([\d.]+)>]
    and is applied with [re.match]: anchored at the start of the
    subject, not at its end.

    Every greedy repetition of the pattern is followed by a literal
    character outside its class, so the longest run is the only one a
    backtracking matcher can succeed with; [take_while] implements it.
    The lazy [.*?] tries the shortest prefix first: [lazy_debug] tests
    the tail [ <([\d.]+)>] at each position from left to right, and
    [.] does not cross a newline. *)

Module Re.

Fixpoint take_while (p : ascii -> bool) (s : string) : string * string :=
  match s with
  | EmptyString => (EmptyString, EmptyString)
  | String c r =>
      if p c then let '(a, b) := take_while p r in (String c a, b)
      else (EmptyString, s)
  end.

(** [X+], greedy *)
Definition many1 (p : ascii -> bool) (s : string) : option (string * string) :=
  let '(a, b) := take_while p s in
  if Py.is_empty a then None else Some (a, b).

(** [\d{n}] *)
Fixpoint digits (n : nat) (s : string) : option (string * string) :=
  match n with
  | O => Some (EmptyString, s)
  | S n' =>
      match s with
      | String c r =>
          if Py.is_digit c then
            '(a, b) ← digits n' r; Some (String c a, b)
          else None
      | EmptyString => None
      end
  end.

(** A literal: the rest of the subject when [pre] is a prefix of it. *)
Fixpoint lit (pre s : string) : option string :=
  match pre with
  | EmptyString => Some s
  | String c pre' =>
      match s with
      | String d r => if Ascii.eqb c d then lit pre' r else None
      | EmptyString => None
      end
  end.

Definition is_dur_char (c : ascii) : bool :=
  Py.is_digit c || (Py.code c =? 46)%N.

Definition not_rparen (c : ascii) : bool := negb (Py.code c =? 41)%N.

(** Group 1 *)
Definition timestamp_group (s : string) : option (string * string) :=
  '(y, s) ← digits 4 s; s ← lit "." s;
  '(mo, s) ← digits 2 s; s ← lit "." s;
  '(d, s) ← digits 2 s; s ← lit " " s;
  '(h, s) ← digits 2 s; s ← lit ":" s;
  '(mi, s) ← digits 2 s; s ← lit ":" s;
  '(se, s) ← digits 2 s; s ← lit "." s;
  '(f, s) ← many1 Py.is_digit s;
  Some (y +:+ "." +:+ mo +:+ "." +:+ d +:+ " " +:+ h +:+ ":" +:+ mi
          +:+ ":" +:+ se +:+ "." +:+ f, s).

(** [ <([\d.]+)>] at the head of the subject *)
Definition duration_tail (s : string) : option string :=
  s ← lit " <" s;
  '(d, s) ← many1 is_dur_char s;
  _ ← lit ">" s;
  Some d.

(** [(.*?) <([\d.]+)>] *)
Fixpoint lazy_debug (s : string) : option (string * string) :=
  match duration_tail s with
  | Some d => Some (EmptyString, d)
  | None =>
      match s with
      | EmptyString => None
      | String c r =>
          if Py.is_newline c then None
          else '(dbg, d) ← lazy_debug r; Some (String c dbg, d)
      end
  end.

(** The eight groups of a match. *)
Record groups := {
  g_timestamp : string; g_uid : string; g_gid : string; g_pid : string;
  g_operation : string; g_args : string; g_result_debug : string;
  g_duration : string }.

(** [re.match(pattern, s)] *)
Definition match_line (s : string) : option groups :=
  '(ts, s) ← timestamp_group s;
  s ← lit " [uid:" s; '(u, s) ← many1 Py.is_digit s;
  s ← lit ",gid:" s; '(g, s) ← many1 Py.is_digit s;
  s ← lit ",pid:" s; '(p, s) ← many1 Py.is_digit s;
  s ← lit "] " s; '(op, s) ← many1 Py.is_word s;
  s ← lit " (" s; '(a, s) ← many1 not_rparen s;
  s ← lit "): OK" s;
  '(dbg, d) ← lazy_debug s;
  Some {| g_timestamp := ts; g_uid := u; g_gid := g; g_pid := p;
          g_operation := op; g_args := a; g_result_debug := dbg;
          g_duration := d |}.

(** [re.search(r'\((\d+)\)', s)]: the digits of the leftmost [(ddd)]. *)
Fixpoint search_paren_int (s : string) : option string :=
  match s with
  | EmptyString => None
  | String c r =>
      let here :=
        if (Py.code c =? 40)%N then
          '(d, r') ← many1 Py.is_digit r; _ ← lit ")" r'; Some d
        else None in
      match here with
      | Some d => Some d
      | None => search_paren_int r
      end
  end.

(** [re.search(r'\[handle:(\w+)\]', s)] *)
Fixpoint search_handle (s : string) : option string :=
  match lit "[handle:" s with
  | Some r =>
      match ('(w, r') ← many1 Py.is_word r; _ ← lit "]" r'; Some w) with
      | Some w => Some w
      | None => match s with
                | EmptyString => None
                | String _ r0 => search_handle r0
                end
      end
  | None => match s with
            | EmptyString => None
            | String _ r0 => search_handle r0
            end
  end.

End Re.

(** ** Operation records *)

(** A value stored under a nullable key: Python's [None], an [int] or
    a [str]. *)
Inductive pyval :=
| VNone
| VInt (z : Z)
| VStr (s : string).

Global Instance pyval_eq_dec : EqDecision pyval.
Proof. solve_decision. Defined.

(** Truth value of an object in a condition. *)
Definition truthy (v : pyval) : bool :=
  match v with
  | VNone => false
  | VInt z => negb (z =? 0)
  | VStr s => negb (Py.is_empty s)
  end.

(** The dict built by [parse_log_line].  The first eight keys are
    always set; each of the others is [None] when the key is absent. *)
Module Op.
Record record := mk {
  timestamp : string;
  uid : Z;
  gid : Z;
  pid : Z;
  operation : string;
  duration : Q;
  args : list string;
  result_debug : string;
  inode : option pyval;
  parent_inode : option Z;
  size : option Z;
  offset : option Z;
  handle : option pyval;
  name : option string;
  mode : option string;
  umask : option pyval;
  flags : option string;
  bytes_read : option Z }.
End Op.

Definition parse_log_line (line : string) : result (option Op.record) :=
  match Re.match_line (Py.strip line) with
  | None => Ok None
  | Some g =>
      let operation := Re.g_operation g in
      let result_debug := Re.g_result_debug g in
      let args_list := Py.strip <$> Py.split_comma (Re.g_args g) in
      try uid := Py.int (Re.g_uid g) in
      try gid := Py.int (Re.g_gid g) in
      try pid := Py.int (Re.g_pid g) in
      try duration := Py.float (Re.g_duration g) in
      let parsed :=
        Op.mk (Re.g_timestamp g) uid gid pid operation duration args_list
          (Py.strip result_debug) in
      let generic := parsed None None None None None None None None None None in
      if String.eqb operation "read" && (4 <=? length args_list)%nat then
        match args_list with
        | a0 :: a1 :: a2 :: a3 :: _ =>
            try inode := Py.int a0 in
            try size := Py.int a1 in
            try offset := Py.int a2 in
            try handle := Py.int a3 in
            try bytes_read :=
              match Re.search_paren_int result_debug with
              | Some d => Py.int d
              | None => Ok size
              end in
            Ok (Some (parsed (Some (VInt inode)) None (Some size) (Some offset)
                        (Some (VInt handle)) None None None None
                        (Some bytes_read)))
        | _ => Ok (Some generic)
        end
      else if String.eqb operation "open" && (2 <=? length args_list)%nat then
        match args_list with
        | a0 :: a1 :: _ =>
            try inode := Py.int a0 in
            let handle :=
              match Re.search_handle result_debug with
              | Some h => VStr h
              | None => VNone
              end in
            Ok (Some (parsed (Some (VInt inode)) None None None (Some handle)
                        None None None (Some a1) None))
        | _ => Ok (Some generic)
        end
      else if String.eqb operation "getattr" && (1 <=? length args_list)%nat then
        match args_list with
        | a0 :: rest =>
            try inode :=
              if Py.isdigit a0 then rbind (Py.int a0) (fun z => Ok (VInt z))
              else Ok VNone in
            Ok (Some (parsed (Some inode) None None None None None None None
                        (head rest) None))
        | _ => Ok (Some generic)
        end
      else if String.eqb operation "create" && (4 <=? length args_list)%nat then
        match args_list with
        | a0 :: a1 :: a2 :: a3 :: _ =>
            try parent_inode := Py.int a0 in
            let umask :=
              if (3 <? length args_list)%nat then VStr a3 else VNone in
            Ok (Some (parsed None (Some parent_inode) None None None (Some a1)
                        (Some a2) (Some umask) None None))
        | _ => Ok (Some generic)
        end
      else if String.eqb operation "write" && (4 <=? length args_list)%nat then
        match args_list with
        | a0 :: a1 :: a2 :: a3 :: _ =>
            try inode := Py.int a0 in
            try size := Py.int a1 in
            try offset := Py.int a2 in
            try handle := Py.int a3 in
            Ok (Some (parsed (Some (VInt inode)) None (Some size) (Some offset)
                        (Some (VInt handle)) None None None None None))
        | _ => Ok (Some generic)
        end
      else if String.eqb operation "unlink" && (2 <=? length args_list)%nat then
        match args_list with
        | a0 :: a1 :: _ =>
            try parent_inode := Py.int a0 in
            Ok (Some (parsed None (Some parent_inode) None None None (Some a1)
                        None None None None))
        | _ => Ok (Some generic)
        end
      else if String.eqb operation "flush" && (2 <=? length args_list)%nat then
        match args_list with
        | a0 :: a1 :: _ =>
            try inode := Py.int a0 in
            try handle := Py.int a1 in
            Ok (Some (parsed (Some (VInt inode)) None None None
                        (Some (VInt handle)) None None None None None))
        | _ => Ok (Some generic)
        end
      else if String.eqb operation "lookup" || String.eqb operation "statfs" then
        match args_list with
        | a0 :: _ =>
            if Py.isdigit a0 then
              try inode := Py.int a0 in
              Ok (Some (parsed (Some (VInt inode)) None None None None None
                          None None None None))
            else Ok (Some generic)
        | [] => Ok (Some generic)
        end
      else Ok (Some generic)
  end.

Definition example_line : string :=
  "2024.01.01 10:00:00.000000 [uid:0,gid:0,pid:1] read (5,4096,0,7): OK (4096) <0.001000>".


(** ** [analyze_io_behavior]: handle and inode counters

    The temporal part of the function (gaps between timestamps, span
    and rate, all binary64 arithmetic on the parsed clock time) is not
    embedded; the counters do not depend on it. *)

Global Instance pyval_countable : Countable pyval :=
  inj_countable'
    (λ v, match v with
          | VNone => inl ()
          | VInt z => inr (inl z)
          | VStr s => inr (inr s)
          end)
    (λ x, match x with
          | inl _ => VNone
          | inr (inl z) => VInt z
          | inr (inr s) => VStr s
          end)
    (λ v, match v with VNone | VInt _ | VStr _ => eq_refl end).

(** [d[k] += 1] on a [defaultdict(int)] *)
Definition incr (k : pyval) (d : gmap pyval nat) : gmap pyval nat :=
  <[k := S (default 0%nat (d !! k))]> d.

(** [if key in op and op[key]: d[op[key]] += 1] *)
Definition count_truthy (field : option pyval) (d : gmap pyval nat)
    : gmap pyval nat :=
  match field with
  | Some v => if truthy v then incr v d else d
  | None => d
  end.

Definition io_step (st : gmap pyval nat * gmap pyval nat) (op : Op.record)
    : gmap pyval nat * gmap pyval nat :=
  (count_truthy (Op.handle op) st.1, count_truthy (Op.inode op) st.2).

Definition sum_Z (l : list Z) : Z := foldr Z.add 0 l.

(** [statistics.mean] of integers: the exact quotient. *)
Definition mean_Z (l : list Z) : Q :=
  Qmake (sum_Z l) (Pos.of_nat (length l)).

Record IoBehavior := {
  unique_handles : nat;
  avg_ops_per_handle : Q;
  high_activity_files : nat }.

(** [None] is the empty dict returned for an empty input. *)
Definition analyze_io_behavior (operations : list Op.record)
    : option IoBehavior :=
  match operations with
  | [] => None
  | _ =>
      let '(handle_usage, inode_operations) :=
        foldl io_step (∅, ∅) operations in
      let counts := (map_to_list inode_operations).*2 in
      Some {| unique_handles := size handle_usage;
              avg_ops_per_handle :=
                if decide (handle_usage = ∅) then 0%Q
                else mean_Z (Z.of_nat <$> (map_to_list handle_usage).*2);
              high_activity_files :=
                length (filter (λ count, (100 < count)%nat) counts) |}
  end.

(** ** [analyze_access_pattern] *)

Inductive pattern :=
| insufficient_data
| unknown
| sequential
| random
| mixed.

Record SeekStats := {
  backward_seeks : nat;
  forward_seeks : nat;
  avg_seek_distance : Q;
  max_seek_distance : Z }.

(** The returned dict: four keys always, the four seek keys together
    or not at all. *)
Record AccessAnalysis := {
  access_pattern : pattern;
  sequential_percentage : float;
  random_percentage : float;
  total_transitions : nat;
  seek_stats : option SeekStats }.

Definition is_io_op (op : Op.record) : bool :=
  (String.eqb (Op.operation op) "read" || String.eqb (Op.operation op) "write")
  && bool_decide (is_Some (Op.offset op)).

(** [by_inode[k].append(op)] on a [defaultdict(list)]; a new key goes
    last, as dicts keep insertion order. *)
Fixpoint group_append (k : pyval) (op : Op.record)
    (by_inode : list (pyval * list Op.record))
    : list (pyval * list Op.record) :=
  match by_inode with
  | [] => [(k, [op])]
  | (k', ops) :: rest =>
      if decide (k = k') then (k', ops ++ [op]) :: rest
      else (k', ops) :: group_append k op rest
  end.

Fixpoint group_by_inode (io_ops : list Op.record)
    (by_inode : list (pyval * list Op.record))
    : option (list (pyval * list Op.record)) :=
  match io_ops with
  | [] => Some by_inode
  | op :: rest =>
      k ← Op.inode op;
      group_by_inode rest (group_append k op by_inode)
  end.

(** [ops.sort(key=lambda x: x['timestamp'])]: a stable sort; strings
    compare by code point. *)
Fixpoint insert_by_timestamp (x : Op.record) (l : list Op.record)
    : list Op.record :=
  match l with
  | [] => [x]
  | y :: l' =>
      if String.leb (Op.timestamp x) (Op.timestamp y) then x :: l
      else y :: insert_by_timestamp x l'
  end.

Definition sort_by_timestamp (l : list Op.record) : list Op.record :=
  foldr insert_by_timestamp [] l.

(** The counters of the loops. *)
Record Counters := {
  sequential_count : nat;
  random_count : nat;
  c_backward_seeks : nat;
  c_forward_seeks : nat;
  seek_distances : list Z }.

Definition counters0 : Counters :=
  {| sequential_count := 0; random_count := 0; c_backward_seeks := 0;
     c_forward_seeks := 0; seek_distances := [] |}.

(** One iteration of [for i in range(1, len(ops))]. *)
Definition transition (prev_op curr_op : Op.record) (c : Counters)
    : option Counters :=
  prev_offset ← Op.offset prev_op;
  prev_size ← Op.size prev_op;
  curr_start ← Op.offset curr_op;
  let prev_end := prev_offset + prev_size in
  let seek_distance := Z.abs (curr_start - prev_end) in
  let dists := seek_distances c ++ [seek_distance] in
  if seek_distance <=? prev_size then
    Some {| sequential_count := S (sequential_count c);
            random_count := random_count c;
            c_backward_seeks := c_backward_seeks c;
            c_forward_seeks := c_forward_seeks c;
            seek_distances := dists |}
  else if curr_start <? prev_offset then
    Some {| sequential_count := sequential_count c;
            random_count := S (random_count c);
            c_backward_seeks := S (c_backward_seeks c);
            c_forward_seeks := c_forward_seeks c;
            seek_distances := dists |}
  else
    Some {| sequential_count := sequential_count c;
            random_count := S (random_count c);
            c_backward_seeks := c_backward_seeks c;
            c_forward_seeks := S (c_forward_seeks c);
            seek_distances := dists |}.

Fixpoint transitions (prev_op : Op.record) (rest : list Op.record)
    (c : Counters) : option Counters :=
  match rest with
  | [] => Some c
  | curr_op :: rest' =>
      c' ← transition prev_op curr_op c;
      transitions curr_op rest' c'
  end.

(** [for ops in by_inode.values()] *)
Fixpoint analyze_groups (by_inode : list (pyval * list Op.record))
    (c : Counters) : option Counters :=
  match by_inode with
  | [] => Some c
  | (_, ops) :: rest =>
      if (length ops <? 2)%nat then analyze_groups rest c
      else
        match sort_by_timestamp ops with
        | [] => analyze_groups rest c
        | first :: others =>
            c' ← transitions first others c;
            analyze_groups rest c'
        end
  end.

(** [int / int] and [float * int] on counters: the conversion is exact
    below [2^53]. *)
Definition to_float (n : nat) : float :=
  PrimFloat.of_uint63 (Uint63.of_Z (Z.of_nat n)).

Definition percentage (count total : nat) : float :=
  PrimFloat.mul (PrimFloat.div (to_float count) (to_float total))
    (to_float 100).

Definition max_Z (l : list Z) : Z :=
  match l with
  | [] => 0
  | x :: l' => foldl Z.max x l'
  end.

Definition empty_result (p : pattern) : AccessAnalysis :=
  {| access_pattern := p; sequential_percentage := to_float 0;
     random_percentage := to_float 0; total_transitions := 0;
     seek_stats := None |}.

Definition classify_counters (c : Counters) : AccessAnalysis :=
  let total_transitions := (sequential_count c + random_count c)%nat in
  if (total_transitions =? 0)%nat then empty_result unknown
  else
    let seq_percentage := percentage (sequential_count c) total_transitions in
    let random_percentage := percentage (random_count c) total_transitions in
    let pattern :=
      if PrimFloat.ltb (to_float 70) seq_percentage then sequential
      else if PrimFloat.ltb seq_percentage (to_float 30) then random
      else mixed in
    {| access_pattern := pattern;
       sequential_percentage := seq_percentage;
       random_percentage := random_percentage;
       total_transitions := total_transitions;
       seek_stats :=
         Some {| backward_seeks := c_backward_seeks c;
                 forward_seeks := c_forward_seeks c;
                 avg_seek_distance :=
                   match seek_distances c with
                   | [] => 0%Q
                   | _ => mean_Z (seek_distances c)
                   end;
                 max_seek_distance :=
                   match seek_distances c with
                   | [] => 0
                   | _ => max_Z (seek_distances c)
                   end |} |}.

(** [None] is the [KeyError] of a qualifying record without ['inode']
    or ['size']. *)
Definition analyze_access_pattern (operations : list Op.record)
    : option AccessAnalysis :=
  let io_ops := filter (λ op, is_io_op op = true) operations in
  if (length io_ops <? 2)%nat then Some (empty_result insufficient_data)
  else
    by_inode ← group_by_inode io_ops [];
    c ← analyze_groups by_inode counters0;
    Some (classify_counters c).

(** ** [analyze_log]

    The function takes the lines of the opened file.  Its printed
    report is represented by the values it is computed from; the
    layout of the table is not embedded. *)

(** [for line in f: parsed = parse_log_line(line); if parsed: ...] *)
Fixpoint read_operations (lines : list string) : result (list Op.record) :=
  match lines with
  | [] => Ok []
  | line :: rest =>
      try parsed := parse_log_line line in
      try operations := read_operations rest in
      Ok (match parsed with
          | Some op => op :: operations
          | None => operations
          end)
  end.

Record BasicStats := {
  total_read_bytes : Z;
  total_write_bytes : Z;
  read_sizes : list Z;
  write_sizes : list Z;
  inodes : gset pyval }.

Definition basic_step (st : BasicStats) (op : Op.record) : BasicStats :=
  let st :=
    match Op.size op with
    | Some size =>
        if String.eqb (Op.operation op) "read" then
          {| total_read_bytes :=
               total_read_bytes st + default size (Op.bytes_read op);
             total_write_bytes := total_write_bytes st;
             read_sizes := read_sizes st ++ [size];
             write_sizes := write_sizes st;
             inodes := inodes st |}
        else if String.eqb (Op.operation op) "write" then
          {| total_read_bytes := total_read_bytes st;
             total_write_bytes := total_write_bytes st + size;
             read_sizes := read_sizes st;
             write_sizes := write_sizes st ++ [size];
             inodes := inodes st |}
        else st
    | None => st
    end in
  match Op.inode op with
  | Some i =>
      {| total_read_bytes := total_read_bytes st;
         total_write_bytes := total_write_bytes st;
         read_sizes := read_sizes st;
         write_sizes := write_sizes st;
         inodes := {[i]} ∪ inodes st |}
  | None => st
  end.

Record Report := {
  total_operations : nat;
  unique_inodes : nat;
  basic : BasicStats;
  access_analysis : AccessAnalysis;
  seek_analysis : SeekStats;
  io_analysis : option IoBehavior }.

Inductive outcome :=
| NoValidOperations
| Analyzed (r : Report).

Definition analyze_log (lines : list string) : result outcome :=
  try operations := read_operations lines in
  match operations with
  | [] => Ok NoValidOperations
  | _ =>
      let stats :=
        foldl basic_step
          {| total_read_bytes := 0; total_write_bytes := 0; read_sizes := [];
             write_sizes := []; inodes := ∅ |} operations in
      match analyze_access_pattern operations with
      | None => Raise KeyError
      | Some access =>
          let io := analyze_io_behavior operations in
          match seek_stats access with
          | None => Raise KeyError
          | Some seeks =>
              Ok (Analyzed
                    {| total_operations := length operations;
                       unique_inodes := size (inodes stats);
                       basic := stats;
                       access_analysis := access;
                       seek_analysis := seeks;
                       io_analysis := io |})
          end
      end
  end.


(** * Specification-side definitions and examples *)

(** ** Example records *)

Definition io_record (op : string) (ts : string) (inode offset size : Z)
    : Op.record :=
  Op.mk ts 0 0 1 op (Qmake 1 1000) [] "" (Some (VInt inode)) None (Some size)
    (Some offset) (Some (VInt 7)) None None None None None.

Definition ex_r1 := io_record "read" "2024.01.01 10:00:00.000001" 5 0 4096.
Definition ex_r2 := io_record "read" "2024.01.01 10:00:00.000002" 5 4096 4096.
Definition ex_r3 := io_record "read" "2024.01.01 10:00:00.000003" 5 1000000 100.


(** ** The grammar, declaratively

    [matches_pattern s]: [s] starts with a text of the shape
    [<timestamp> [uid:<uid>,gid:<gid>,pid:<pid>] <operation> (<args>): OK<resultDebug> <<duration>>];
    what follows the closing bracket is free. *)

Definition chars (p : ascii -> bool) (s : string) : Prop :=
  Py.all_chars p s = true.

Definition digits_of_length (n : nat) (s : string) : Prop :=
  String.length s = n ∧ chars Py.is_digit s.

Definition nonempty (p : ascii -> bool) (s : string) : Prop :=
  s ≠ EmptyString ∧ chars p s.

Definition matches_pattern (s : string) : Prop :=
  ∃ y mo d h mi se f u g p op a dbg dur rest,
    s = y +:+ "." +:+ mo +:+ "." +:+ d +:+ " " +:+ h +:+ ":" +:+ mi
          +:+ ":" +:+ se +:+ "." +:+ f
          +:+ " [uid:" +:+ u +:+ ",gid:" +:+ g +:+ ",pid:" +:+ p +:+ "] "
          +:+ op +:+ " (" +:+ a +:+ "): OK" +:+ dbg +:+ " <" +:+ dur
          +:+ ">" +:+ rest ∧
    digits_of_length 4 y ∧ digits_of_length 2 mo ∧ digits_of_length 2 d ∧
    digits_of_length 2 h ∧ digits_of_length 2 mi ∧ digits_of_length 2 se ∧
    nonempty Py.is_digit f ∧ nonempty Py.is_digit u ∧
    nonempty Py.is_digit g ∧ nonempty Py.is_digit p ∧
    nonempty Py.is_word op ∧ nonempty Re.not_rparen a ∧
    chars (λ c, negb (Py.is_newline c)) dbg ∧ nonempty Re.is_dur_char dur.

(** A run of [p] is the longest one when the next character is
    outside [p]. *)
Definition stops (p : ascii -> bool) (r : string) : Prop :=
  match r with
  | EmptyString => True
  | String c _ => p c = false
  end.

(** ** Example lines *)

Definition wrong_bracket_line : string :=
  "2024.01.01 10:00:00.000000 {uid:0,gid:0,pid:1} read (5,4096,0,7): OK (4096) <0.001000>".

Definition trailing_text_line : string := example_line +:+ " trailing".
Definition leading_space_line : string := "  " +:+ example_line.





(** ** The classification of a transition, in the words of the
    specification *)

Inductive transition_kind :=
| Sequential
| RandomBackward
| RandomForward.

Global Instance transition_kind_eq_dec : EqDecision transition_kind.
Proof. solve_decision. Defined.

(** seekDistance = |curr.offset − (prev.offset + prev.size)| *)
Definition seekDistance (prev_offset prev_size curr_offset : Z) : Z :=
  Z.abs (curr_offset - (prev_offset + prev_size)).

(** Sequential if seekDistance ≤ prev.size, else random; a random
    transition is backward if curr.offset < prev.offset, else forward. *)
Definition spec_classify (prev_offset prev_size curr_offset : Z)
    : transition_kind :=
  if decide (seekDistance prev_offset prev_size curr_offset <= prev_size)
  then Sequential
  else if decide (curr_offset < prev_offset) then RandomBackward
  else RandomForward.

(** The offset and size of a record that has both. *)
Definition extent (op : Op.record) : Z * Z :=
  (default 0 (Op.offset op), default 0 (Op.size op)).

Definition has_extent (op : Op.record) : Prop :=
  is_Some (Op.offset op) ∧ is_Some (Op.size op).

Definition pair_kind (p : Op.record * Op.record) : transition_kind :=
  spec_classify (extent p.1).1 (extent p.1).2 (extent p.2).1.

Definition pair_distance (p : Op.record * Op.record) : Z :=
  seekDistance (extent p.1).1 (extent p.1).2 (extent p.2).1.

(** The pairs (prev, curr) of neighbours in a list. *)
Definition consecutive (l : list Op.record) : list (Op.record * Op.record) :=
  zip l (tail l).

(** The counters a list of transitions amounts to. *)
Definition counters_of (pairs : list (Op.record * Op.record)) : Counters :=
  {| sequential_count := length (filter (λ p, pair_kind p = Sequential) pairs);
     random_count := length (filter (λ p, pair_kind p ≠ Sequential) pairs);
     c_backward_seeks :=
       length (filter (λ p, pair_kind p = RandomBackward) pairs);
     c_forward_seeks :=
       length (filter (λ p, pair_kind p = RandomForward) pairs);
     seek_distances := pair_distance <$> pairs |}.

Definition counters_add (a b : Counters) : Counters :=
  {| sequential_count := sequential_count a + sequential_count b;
     random_count := random_count a + random_count b;
     c_backward_seeks := c_backward_seeks a + c_backward_seeks b;
     c_forward_seeks := c_forward_seeks a + c_forward_seeks b;
     seek_distances := seek_distances a ++ seek_distances b |}.

(** All transitions of the groups of [by_inode], each group in
    timestamp order. *)
Definition all_transitions (by_inode : list (pyval * list Op.record))
    : list (Op.record * Op.record) :=
  concat ((λ g, consecutive (sort_by_timestamp g.2)) <$> by_inode).


(** The records of [l] whose inode is [k]. *)
Definition members (k : pyval) (l : list Op.record) : list Op.record :=
  filter (λ op, Op.inode op = Some k) l.

(** [by_inode.get(k)] *)
Fixpoint lookup_group (k : pyval) (g : list (pyval * list Op.record))
    : option (list Op.record) :=
  match g with
  | [] => None
  | (k', v) :: g' => if decide (k = k') then Some v else lookup_group k g'
  end.

(** [g] is the grouping of [l] by inode: one entry per inode that
    occurs, holding the records of that inode in the order of [l]. *)
Definition grouped (l : list Op.record) (g : list (pyval * list Op.record))
    : Prop :=
  NoDup g.*1 ∧
  ∀ k, lookup_group k g =
       match members k l with
       | [] => None
       | v => Some v
       end.


Definition ex_other_inode :=
  io_record "write" "2024.01.01 10:00:00.000002" 6 4096 4096.

(** The order of the sort: timestamps compared as strings. *)
Definition ts_le (a b : Op.record) : Prop :=
  String.leb (Op.timestamp a) (Op.timestamp b) = true.

(** A transition the loop can compute: the keys it reads are there. *)
Definition pair_ok (p : Op.record * Op.record) : Prop :=
  has_extent p.1 ∧ is_Some (Op.offset p.2).

Definition tie_a := io_record "read" "2024.01.01 10:00:00.000001" 5 0 100.
Definition tie_b := io_record "read" "2024.01.01 10:00:00.000001" 5 50 1.

(** ** The keys counted by [analyze_io_behavior] *)

(** The value of a field when it is present and true in a condition:
    not [None], not the integer 0, not the empty string. *)
Definition truthy_field (f : option pyval) : option pyval :=
  match f with
  | Some v => if truthy v then Some v else None
  | None => None
  end.

Definition handle_keys (ops : list Op.record) : list pyval :=
  omap (λ op, truthy_field (Op.handle op)) ops.

Definition inode_keys (ops : list Op.record) : list pyval :=
  omap (λ op, truthy_field (Op.inode op)) ops.

Definition occurrences (k : pyval) (keys : list pyval) : nat :=
  length (filter (λ x, x = k) keys).

(** Counting a list of keys into a [defaultdict(int)]. *)
Definition count_keys (d : gmap pyval nat) (keys : list pyval)
    : gmap pyval nat :=
  foldl (λ d k, incr k d) d keys.

Definition zero_handle_line : string :=
  "2024.01.01 10:00:00.000000 [uid:0,gid:0,pid:1] read (5,4096,0,0): OK (4096) <0.001000>".

Definition inode_42 (n : nat) : list Op.record :=
  replicate n (io_record "read" "2024.01.01 10:00:00.000001" 42 0 4096).

(** ** Further examples *)

Definition bad_duration_line : string :=
  "2024.01.01 10:00:00.000000 [uid:0,gid:0,pid:1] statfs (1): OK <1.2.3>".

(** The number of commas of a text. *)
Fixpoint commas (s : string) : nat :=
  match s with
  | EmptyString => 0
  | String c r => ((if (Py.code c =? 44)%N then 1 else 0) + commas r)%nat
  end.

(** ** The record stream, declaratively *)

(** The record of a line, if it has one. *)
Definition record_of (line : string) : option Op.record :=
  match parse_log_line line with
  | Ok (Some r) => Some r
  | _ => None
  end.

(** The line makes the parser raise. *)
Definition raises (line : string) : Prop :=
  ∃ e, parse_log_line line = Raise e.

Definition open_line : string :=
  "2024.01.01 10:00:00.000000 [uid:0,gid:0,pid:1] open (5,0x8000): OK [handle:A1] <0.000100>".

(** The number of records held by a grouping. *)
Definition grouped_size (g : list (pyval * list Op.record)) : nat :=
  sum_list (length <$> g.*2).

(** ** The basic statistics of [analyze_log], record by record *)

(** The size a record adds to [read_sizes]. *)
Definition read_size (op : Op.record) : option Z :=
  if String.eqb (Op.operation op) "read" then Op.size op else None.

(** The size a record adds to [write_sizes]. *)
Definition write_size (op : Op.record) : option Z :=
  if String.eqb (Op.operation op) "write" then Op.size op else None.

(** The bytes a record adds to [total_read_bytes]:
    [op.get('bytes_read', op['size'])]. *)
Definition read_bytes (op : Op.record) : option Z :=
  size ← read_size op; Some (default size (Op.bytes_read op)).

Definition write_line : string :=
  "2024.01.01 10:00:01.000000 [uid:0,gid:0,pid:1] write (5,100,4096,7): OK <0.002000>".
Definition read_line_2 : string :=
  "2024.01.01 10:00:02.000000 [uid:0,gid:0,pid:1] read (5,4096,4196,7): OK (1000) <0.001000>".



(** ** [format_size]

    The argument is an [int].  The first division turns it into a
    binary64 float; for an argument below [2^53] the argument and every
    quotient by 1024 are represented exactly, so the value is kept
    as the rational it is.  The format [.1f] rounds the exact value
    to one decimal, ties to the even digit. *)

(** [str(z)] for a natural number. *)
Definition dec (z : Z) : string :=
  NilZero.string_of_uint (N.to_uint (Z.to_N z)).

Definition round_half_even (q : Q) : Z :=
  let f := Qnum q / Z.pos (Qden q) in
  let r := Qnum q mod Z.pos (Qden q) in
  match 2 * r ?= Z.pos (Qden q) with
  | Lt => f
  | Gt => f + 1
  | Eq => if Z.even f then f else f + 1
  end.

(** The text of [d] tenths. *)
Definition tenths (d : Z) : string := dec (d / 10) +:+ "." +:+ dec (d mod 10).

(** [f"{q:.1f}"] *)
Definition fmt1 (q : Q) : string :=
  if Qle_bool 0 q then tenths (round_half_even (q * 10))
  else "-" +:+ tenths (round_half_even (- q * 10)).

(** The loop [for unit in [...]] with the final [return]. *)
Fixpoint format_loop (units : list string) (size_bytes : Q) : string :=
  match units with
  | [] => fmt1 size_bytes +:+ "TB"
  | unit :: rest =>
      if Qle_bool 1024 size_bytes then format_loop rest (size_bytes / 1024)
      else fmt1 size_bytes +:+ unit
  end.

Definition format_size (size_bytes : Z) : string :=
  format_loop ["B"; "KB"; "MB"; "GB"] (inject_Z size_bytes).

(** The units in the order of the loop. *)
Definition size_units : list string := ["B"; "KB"; "MB"; "GB"; "TB"].

(** ** The size distribution printed by [analyze_log]

    The loops over [read_sizes] and over [write_sizes] are the same
    code; [size_distribution] is that code on either list.  The labels
    are kept as the UTF-8 text of the source. *)

Definition bucket_labels : list string :=
  ["≤4KB"; "≤8KB"; "≤32KB"; "≤64KB"; "≤128KB"; ">128KB"].

Definition bucket_label (size : Z) : string :=
  if size <=? 4096 then "≤4KB"
  else if size <=? 8192 then "≤8KB"
  else if size <=? 32768 then "≤32KB"
  else if size <=? 65536 then "≤64KB"
  else if size <=? 131072 then "≤128KB"
  else ">128KB".

(** [buckets[label] += 1] on a [defaultdict(int)]; a new label goes
    last. *)
Fixpoint bump (label : string) (d : list (string * nat))
    : list (string * nat) :=
  match d with
  | [] => [(label, 1%nat)]
  | (l, c) :: d' =>
      if decide (label = l) then (l, S c) :: d'
      else (l, c) :: bump label d'
  end.

Definition size_buckets (sizes : list Z) : list (string * nat) :=
  foldl (λ d size, bump (bucket_label size) d) [] sizes.

(** [labels.index(x)]; [None] is its [ValueError]. *)
Fixpoint index_of (x : string) (labels : list string) : option nat :=
  match labels with
  | [] => None
  | l :: labels' =>
      if decide (x = l) then Some 0%nat else S <$> index_of x labels'
  end.

(** [sorted(items, key=...)]: the keys are computed first, the sort is
    stable. *)
Fixpoint insert_keyed {A} (x : nat * A) (l : list (nat * A))
    : list (nat * A) :=
  match l with
  | [] => [x]
  | y :: l' =>
      if (x.1 <=? y.1)%nat then x :: l else y :: insert_keyed x l'
  end.

Definition sort_keyed {A} (l : list (nat * A)) : list (nat * A) :=
  foldr insert_keyed [] l.

Definition sorted_buckets (d : list (string * nat))
    : option (list (string * nat)) :=
  keyed ← mapM (λ e, i ← index_of e.1 bucket_labels; Some (i, e)) d;
  Some (sort_keyed keyed).*2.

(** The rows of one table: label, count and percentage of each
    bucket that is not empty. *)
Definition size_distribution (sizes : list Z)
    : option (list (string * nat * float)) :=
  match sorted_buckets (size_buckets sizes) with
  | Some rows =>
      Some ((λ row : string * nat,
               (row.1, row.2, percentage row.2 (length sizes))) <$> rows)
  | None => None
  end.

(** The number of sizes that fall into a bucket. *)
Definition bucket_count (label : string) (sizes : list Z) : nat :=
  length (filter (λ size, bucket_label size = label) sizes).

(** The non-empty buckets in the order of the labels. *)
Definition expected_rows (sizes : list Z) : list (string * nat) :=
  omap (λ label,
          let c := bucket_count label sizes in
          if decide (c = 0%nat) then None else Some (label, c))
       bucket_labels.

(** [buckets.get(label)] *)
Fixpoint blookup (label : string) (d : list (string * nat)) : option nat :=
  match d with
  | [] => None
  | (l, c) :: d' => if decide (label = l) then Some c else blookup label d'
  end.

(** A row with the key the sort gives it. *)
Definition row_key (e : string * nat) : nat * (string * nat) :=
  (default 0%nat (index_of e.1 bucket_labels), e).

Definition key_le {A} (a b : nat * A) : Prop := (a.1 ≤ b.1)%nat.

(** * Properties *)

Section matcher_sound.

Lemma append_cons c (a b : string) : String c a +:+ b = String c (a +:+ b).
Proof. reflexivity. Qed.

Lemma append_nil (b : string) : EmptyString +:+ b = b.
Proof. reflexivity. Qed.

Lemma append_assoc (a b c : string) : (a +:+ b) +:+ c = a +:+ b +:+ c.
Proof.
  induction a as [|x a IH]; [done|]. by rewrite !append_cons, IH.
Qed.

Lemma timestamp_assoc (y mo d h mi se f r : string) :
  (y +:+ "." +:+ mo +:+ "." +:+ d +:+ " " +:+ h +:+ ":" +:+ mi
     +:+ ":" +:+ se +:+ "." +:+ f) +:+ r =
  y +:+ "." +:+ mo +:+ "." +:+ d +:+ " " +:+ h +:+ ":" +:+ mi
    +:+ ":" +:+ se +:+ "." +:+ f +:+ r.
Proof.
  rewrite (append_assoc y), (append_assoc "."), (append_assoc mo),
    (append_assoc "."), (append_assoc d), (append_assoc " "),
    (append_assoc h), (append_assoc ":"), (append_assoc mi),
    (append_assoc ":"), (append_assoc se), (append_assoc ".").
  reflexivity.
Qed.

Lemma lit_Some pre s r : Re.lit pre s = Some r → s = pre +:+ r.
Proof.
  revert s. induction pre as [|c pre IH]; intros s H; simpl in *.
  - by inversion H.
  - destruct s as [|d s]; [done|].
    destruct (Ascii.eqb_spec c d) as [->|]; [|done].
    by rewrite (IH _ H).
Qed.

Lemma digits_Some n s a r :
  Re.digits n s = Some (a, r) → s = a +:+ r ∧ digits_of_length n a.
Proof.
  revert s a r. induction n as [|n IH]; intros s a r H; simpl in *.
  - inversion H; subst. by repeat split.
  - destruct s as [|c s]; [done|].
    destruct (Py.is_digit c) eqn:Hc; [|done].
    destruct (Re.digits n s) as [[a' r']|] eqn:Hd; simplify_eq/=.
    destruct (IH _ _ _ Hd) as (-> & Hlen & Hch).
    repeat split; simpl; [by rewrite Hlen|].
    unfold chars in *. simpl. by rewrite Hc, Hch.
Qed.

Lemma take_while_spec p s a b :
  Re.take_while p s = (a, b) → s = a +:+ b ∧ chars p a.
Proof.
  revert a b. induction s as [|c s IH]; intros a b H; simpl in *.
  - by inversion H.
  - destruct (p c) eqn:Hc.
    + destruct (Re.take_while p s) as [a' b'] eqn:Ht. inversion H; subst.
      destruct (IH _ _ eq_refl) as [-> Hch]. split; [done|].
      unfold chars in *. simpl. by rewrite Hc, Hch.
    + by inversion H.
Qed.

Lemma many1_Some p s a r :
  Re.many1 p s = Some (a, r) → s = a +:+ r ∧ nonempty p a.
Proof.
  unfold Re.many1. destruct (Re.take_while p s) as [a' b'] eqn:Ht.
  destruct (Py.is_empty a') eqn:He; [done|]. intros [= -> ->].
  destruct (take_while_spec _ _ _ _ Ht) as [-> Hch].
  repeat split; [|done]. by destruct a.
Qed.

#[local] Arguments Re.lit : simpl never.
#[local] Arguments Re.digits : simpl never.
#[local] Arguments Re.many1 : simpl never.

Lemma duration_tail_Some s d :
  Re.duration_tail s = Some d →
  ∃ rest, s = " <" +:+ d +:+ ">" +:+ rest ∧ nonempty Re.is_dur_char d.
Proof.
  unfold Re.duration_tail. intros H.
  destruct (Re.lit " <" s) as [s1|] eqn:H1; [|done]. simpl in H.
  destruct (Re.many1 Re.is_dur_char s1) as [[d' s2]|] eqn:H2; [|done].
  simpl in H. destruct (Re.lit ">" s2) as [s3|] eqn:H3; [|done].
  simpl in H. inversion H; subst.
  apply lit_Some in H1, H3. apply many1_Some in H2 as [-> Hd].
  exists s3. by subst.
Qed.

Lemma lazy_debug_Some s dbg d :
  Re.lazy_debug s = Some (dbg, d) →
  ∃ rest, s = dbg +:+ " <" +:+ d +:+ ">" +:+ rest ∧
          chars (λ c, negb (Py.is_newline c)) dbg ∧
          nonempty Re.is_dur_char d.
Proof.
  revert dbg. induction s as [|c s IH]; intros dbg H.
  - simpl in H. by destruct (Re.duration_tail "").
  - cbn [Re.lazy_debug] in H.
    destruct (Re.duration_tail (String c s)) as [d'|] eqn:Ht.
    + inversion H; subst.
      destruct (duration_tail_Some _ _ Ht) as (rest & -> & Hd).
      by exists rest.
    + destruct (Py.is_newline c) eqn:Hc; [done|].
      destruct (Re.lazy_debug s) as [[dbg' d']|] eqn:Hl; simplify_eq/=.
      destruct (IH _ eq_refl) as (rest & -> & Hdbg & Hd).
      exists rest. repeat split; try done; try apply Hd.
      unfold chars in *. simpl. by rewrite Hc, Hdbg.
Qed.

Lemma timestamp_group_Some s ts r :
  Re.timestamp_group s = Some (ts, r) →
  ∃ y mo d h mi se f,
    s = ts +:+ r ∧
    ts = y +:+ "." +:+ mo +:+ "." +:+ d +:+ " " +:+ h +:+ ":" +:+ mi
           +:+ ":" +:+ se +:+ "." +:+ f ∧
    digits_of_length 4 y ∧ digits_of_length 2 mo ∧ digits_of_length 2 d ∧
    digits_of_length 2 h ∧ digits_of_length 2 mi ∧ digits_of_length 2 se ∧
    nonempty Py.is_digit f.
Proof.
  unfold Re.timestamp_group. intros H.
  repeat match type of H with
  | context [Re.digits ?n ?x] =>
      let E := fresh "E" in
      destruct (Re.digits n x) as [[? ?]|] eqn:E; [|done];
      apply digits_Some in E as [-> ?]; simpl in H
  | context [Re.lit ?l ?x] =>
      let E := fresh "E" in
      destruct (Re.lit l x) as [?|] eqn:E; [|done];
      apply lit_Some in E; simpl in H
  | context [Re.many1 ?q ?x] =>
      let E := fresh "E" in
      destruct (Re.many1 q x) as [[? ?]|] eqn:E; [|done];
      apply many1_Some in E as [-> ?]; simpl in H
  end.
  inversion H; subst. do 7 eexists. split; [|split; [reflexivity|done]].
  by rewrite timestamp_assoc.
Qed.

Lemma match_line_Some s g :
  Re.match_line s = Some g →
  ∃ rest,
    s = Re.g_timestamp g +:+ " [uid:" +:+ Re.g_uid g +:+ ",gid:"
          +:+ Re.g_gid g +:+ ",pid:" +:+ Re.g_pid g +:+ "] "
          +:+ Re.g_operation g +:+ " (" +:+ Re.g_args g +:+ "): OK"
          +:+ Re.g_result_debug g +:+ " <" +:+ Re.g_duration g +:+ ">"
          +:+ rest ∧
    nonempty Py.is_digit (Re.g_uid g) ∧ nonempty Py.is_digit (Re.g_gid g) ∧
    nonempty Py.is_digit (Re.g_pid g) ∧
    nonempty Py.is_word (Re.g_operation g) ∧
    nonempty Re.not_rparen (Re.g_args g) ∧
    chars (λ c, negb (Py.is_newline c)) (Re.g_result_debug g) ∧
    nonempty Re.is_dur_char (Re.g_duration g).
Proof.
  unfold Re.match_line. intros H.
  destruct (Re.timestamp_group s) as [[ts s0]|] eqn:Hts; [|done].
  simpl in H.
  repeat match type of H with
  | context [Re.lit ?l ?x] =>
      let E := fresh "E" in
      destruct (Re.lit l x) as [?|] eqn:E; [|done];
      apply lit_Some in E; simpl in H
  | context [Re.many1 ?q ?x] =>
      let E := fresh "E" in
      destruct (Re.many1 q x) as [[? ?]|] eqn:E; [|done];
      apply many1_Some in E as [-> ?]; simpl in H
  end.
  destruct (Re.lazy_debug _) as [[dbg d]|] eqn:Hl; [|done]. simpl in H.
  apply lazy_debug_Some in Hl as (rest & -> & Hdbg & Hd).
  apply timestamp_group_Some in Hts as (? & ? & ? & ? & ? & ? & ? & -> & _).
  inversion H; subst; simpl. exists rest.
  split; [reflexivity|]. repeat (split; [assumption|]). assumption.
Qed.

Lemma match_line_matches s g :
  Re.match_line s = Some g → matches_pattern s.
Proof.
  intros H. destruct (match_line_Some _ _ H) as (rest & Hs & ?).
  unfold Re.match_line in H.
  destruct (Re.timestamp_group s) as [[ts s0]|] eqn:Hts; [|done].
  destruct (timestamp_group_Some _ _ _ Hts)
    as (y & mo & d & h & mi & se & f & _ & Hts' & ?).
  assert (Re.g_timestamp g = ts) as Hg.
  { simpl in H.
    repeat match type of H with
    | context [Re.lit ?l ?x] => destruct (Re.lit l x); [|done]; simpl in H
    | context [Re.many1 ?q ?x] =>
        destruct (Re.many1 q x) as [[? ?]|]; [|done]; simpl in H
    | context [Re.lazy_debug ?x] =>
        destruct (Re.lazy_debug x) as [[? ?]|]; [|done]; simpl in H
    end.
    by injection H as <-. }
  rewrite Hg, Hts', timestamp_assoc in Hs.
  exists y, mo, d, h, mi, se, f, (Re.g_uid g), (Re.g_gid g), (Re.g_pid g),
    (Re.g_operation g), (Re.g_args g), (Re.g_result_debug g),
    (Re.g_duration g), rest.
  split; [exact Hs|]. tauto.
Qed.

End matcher_sound.

(** ** Completeness of the matcher *)

Section matcher_complete.

Lemma lit_append pre r : Re.lit pre (pre +:+ r) = Some r.
Proof.
  induction pre as [|c pre IH]; [done|].
  rewrite append_cons. simpl. by rewrite Ascii.eqb_refl.
Qed.

Lemma digits_append n a r :
  digits_of_length n a → Re.digits n (a +:+ r) = Some (a, r).
Proof.
  revert a. induction n as [|n IH]; intros a [Hlen Hch].
  - by destruct a.
  - destruct a as [|c a]; [done|]. unfold chars in Hch. simpl in *.
    apply andb_true_iff in Hch as [Hc Hch]. rewrite Hc.
    rewrite IH; [done|]. split; [lia|done].
Qed.

Lemma take_while_append p a r :
  chars p a → stops p r → Re.take_while p (a +:+ r) = (a, r).
Proof.
  intros Hch Hr. induction a as [|c a IH].
  - rewrite append_nil. destruct r as [|d r]; [done|].
    simpl in *. by rewrite Hr.
  - unfold chars in *. simpl in Hch.
    apply andb_true_iff in Hch as [Hc Hch].
    rewrite append_cons. simpl. by rewrite Hc, IH.
Qed.

Lemma many1_append p a r :
  nonempty p a → stops p r → Re.many1 p (a +:+ r) = Some (a, r).
Proof.
  intros [Hne Hch] Hr. unfold Re.many1.
  rewrite take_while_append by done. by destruct a.
Qed.

#[local] Arguments Re.lit : simpl never.
#[local] Arguments Re.digits : simpl never.
#[local] Arguments Re.many1 : simpl never.

Lemma duration_tail_append d rest :
  nonempty Re.is_dur_char d →
  Re.duration_tail (" <" +:+ d +:+ ">" +:+ rest) = Some d.
Proof.
  intros Hd. unfold Re.duration_tail.
  rewrite lit_append. simpl. rewrite many1_append by done. simpl.
  by rewrite ?lit_append.
Qed.

Lemma lazy_debug_here s d :
  Re.duration_tail s = Some d → Re.lazy_debug s = Some (EmptyString, d).
Proof. intros H. destruct s; cbn [Re.lazy_debug]; by rewrite H. Qed.

Lemma lazy_debug_append dbg d rest :
  chars (λ c, negb (Py.is_newline c)) dbg →
  nonempty Re.is_dur_char d →
  is_Some (Re.lazy_debug (dbg +:+ " <" +:+ d +:+ ">" +:+ rest)).
Proof.
  intros Hdbg Hd. induction dbg as [|c dbg IH].
  - rewrite append_nil, (lazy_debug_here _ d); [done|].
    by apply duration_tail_append.
  - unfold chars in Hdbg. simpl in Hdbg.
    apply andb_true_iff in Hdbg as [Hc Hdbg].
    rewrite append_cons. cbn [Re.lazy_debug].
    destruct (Re.duration_tail _); [done|].
    apply negb_true_iff in Hc. rewrite Hc.
    destruct (IH Hdbg) as [[dbg' d'] ->]. done.
Qed.

Lemma match_line_complete s : matches_pattern s → is_Some (Re.match_line s).
Proof.
  intros (y & mo & d & h & mi & se & f & u & g & p & op & a & dbg & dur
            & rest & -> & Hy & Hmo & Hd & Hh & Hmi & Hse & Hf & Hu & Hg & Hp
            & Hop & Ha & Hdbg & Hdur).
  unfold Re.match_line, Re.timestamp_group.
  repeat first
    [ rewrite lit_append; simpl
    | rewrite append_nil
    | rewrite digits_append by done; simpl
    | rewrite many1_append by done; simpl ].
  destruct (lazy_debug_append dbg dur rest Hdbg Hdur) as [[dbg' d'] ->].
  done.
Qed.

Lemma matches_pattern_iff s : matches_pattern s ↔ is_Some (Re.match_line s).
Proof.
  split; [apply match_line_complete|].
  intros [g Hg]. by eapply match_line_matches.
Qed.

End matcher_complete.

(** ** Whitespace trimming and the grammar *)

Section strip_facts.

Lemma lstrip_spaces ws s :
  chars Py.is_space ws → Py.lstrip (ws +:+ s) = Py.lstrip s.
Proof.
  unfold chars. induction ws as [|c ws IH]; intros H; [done|].
  simpl in H. apply andb_true_iff in H as [Hc H].
  rewrite append_cons. simpl. rewrite Hc. by apply IH.
Qed.

Lemma lstrip_append s e :
  Py.lstrip s ≠ EmptyString → Py.lstrip (s +:+ e) = Py.lstrip s +:+ e.
Proof.
  induction s as [|c s IH]; intros H; [done|].
  rewrite append_cons. simpl in *.
  destruct (Py.is_space c); [by apply IH|done].
Qed.

Lemma rstrip_append_prefix s e :
  ∃ t, Py.rstrip (s +:+ e) = Py.rstrip s +:+ t.
Proof.
  induction s as [|c s [t IH]].
  - rewrite append_nil. by exists (Py.rstrip e).
  - rewrite append_cons. simpl. rewrite IH.
    destruct (Py.is_space c) eqn:Hc; simpl.
    + destruct (Py.rstrip s) as [|d r] eqn:Hr; simpl.
      * destruct (Py.is_empty (EmptyString +:+ t)); eauto.
      * by exists t.
    + by exists t.
Qed.

Lemma matches_pattern_append s e :
  matches_pattern s → matches_pattern (s +:+ e).
Proof.
  intros (y & mo & d & h & mi & se & f & u & g & p & op & a & dbg & dur
            & rest & -> & H).
  exists y, mo, d, h, mi, se, f, u, g, p, op, a, dbg, dur, (rest +:+ e).
  split; [|exact H]. by rewrite !append_assoc.
Qed.

Lemma matches_pattern_nonempty s : matches_pattern s → s ≠ EmptyString.
Proof.
  intros (y & mo & d & h & mi & se & f & u & g & p & op & a & dbg & dur
            & rest & -> & [Hy _] & _).
  by destruct y.
Qed.

(** The trimmed line is a prefix of the trimmed extension. *)
Lemma strip_append_prefix s e :
  Py.strip s ≠ EmptyString → ∃ t, Py.strip (s +:+ e) = Py.strip s +:+ t.
Proof.
  unfold Py.strip. intros H.
  rewrite lstrip_append; [apply rstrip_append_prefix|].
  intros Hl. by rewrite Hl in H.
Qed.

End strip_facts.

(** ** The line parser *)

Lemma parse_log_line_None line :
  parse_log_line line = Ok None ↔ Re.match_line (Py.strip line) = None.
Proof.
  unfold parse_log_line. split.
  - destruct (Re.match_line _) as [g|]; [|done]. intros H. exfalso.
    repeat match type of H with
    | context [rbind ?m _] => destruct m; cbn [rbind] in H; [|done]
    | context [if ?b then _ else _] => destruct b
    | context [match ?l with [] => _ | _ :: _ => _ end] => destruct l
    end; done.
  - by intros ->.
Qed.



(** Every branch of the parser keeps the generic fields of the match. *)
Lemma parse_log_line_fields line r :
  parse_log_line line = Ok (Some r) →
  ∃ g, Re.match_line (Py.strip line) = Some g ∧
       Op.timestamp r = Re.g_timestamp g ∧
       Py.int (Re.g_uid g) = Ok (Op.uid r) ∧
       Py.int (Re.g_gid g) = Ok (Op.gid r) ∧
       Py.int (Re.g_pid g) = Ok (Op.pid r) ∧
       Op.operation r = Re.g_operation g ∧
       Py.float (Re.g_duration g) = Ok (Op.duration r) ∧
       Op.args r = Py.strip <$> Py.split_comma (Re.g_args g) ∧
       Op.result_debug r = Py.strip (Re.g_result_debug g).
Proof.
  unfold parse_log_line. intros H.
  destruct (Re.match_line _) as [g|]; [|done]. exists g.
  destruct (Py.int (Re.g_uid g)) as [u|]; [|done].
  destruct (Py.int (Re.g_gid g)) as [gi|]; [|done].
  destruct (Py.int (Re.g_pid g)) as [pi|]; [|done].
  destruct (Py.float (Re.g_duration g)) as [du|]; [|done].
  cbn [rbind] in H.
  repeat match type of H with
  | context [rbind ?m _] => destruct m; cbn [rbind] in H; [|done]
  | context [if ?b then _ else _] => destruct b
  | context [match ?l with [] => _ | _ :: _ => _ end] => destruct l
  end; injection H as <-; done.
Qed.

(** ** The parenthesized integer of [resultDebug] *)

Section paren_int.











Lemma digit_not_space c : Py.is_digit c = true → Py.is_space c = false.
Proof.
  unfold Py.is_digit, Py.is_space. intros H.
  apply andb_true_iff in H as [H1%N.leb_le H2%N.leb_le].
  apply orb_false_iff. split; apply andb_false_iff.
  - right. apply N.leb_gt. lia.
  - right. apply N.leb_gt. lia.
Qed.





End paren_int.




(** C5, the claim as stated fails: text after the closing bracket of
    the duration and whitespace before the timestamp are both accepted,
    and give the record of the plain line. *)
Lemma parse_log_line_not_end_anchored :
  (∃ r, parse_log_line example_line = Ok (Some r) ∧
        parse_log_line trailing_text_line = Ok (Some r) ∧
        parse_log_line leading_space_line = Ok (Some r)).
Proof. eexists. repeat split; vm_compute; reflexivity. Qed.

(** C5, amended: the parser gives no record exactly when, after
    trimming whitespace at both ends, no prefix of the line has the
    shape of the grammar.  Leading whitespace never changes the result,
    and text appended to an accepted line never makes it rejected. *)
Theorem parse_log_line_prefix_match (line : string) :
  (parse_log_line line = Ok None ↔ ¬ matches_pattern (Py.strip line)) ∧
  (∀ ws, chars Py.is_space ws →
         parse_log_line (ws +:+ line) = parse_log_line line) ∧
  (∀ extra, matches_pattern (Py.strip line) →
            matches_pattern (Py.strip (line +:+ extra))).
Proof.
  repeat split.
  - intros H%parse_log_line_None Hm%matches_pattern_iff.
    rewrite H in Hm. by destruct Hm.
  - intros H. apply parse_log_line_None.
    destruct (Re.match_line _) as [g|] eqn:E; [|done].
    destruct H. by eapply match_line_matches.
  - intros ws Hws. unfold parse_log_line, Py.strip.
    by rewrite lstrip_spaces.
  - intros extra Hm.
    destruct (strip_append_prefix line extra) as [t ->].
    + by apply matches_pattern_nonempty.
    + by apply matches_pattern_append.
Qed.

Lemma parse_log_line_prefix_match_witness :
  parse_log_line ("  " +:+ example_line) = parse_log_line example_line ∧
  matches_pattern (Py.strip (example_line +:+ " trailing")).
Proof.
  split.
  - by apply (proj1 (proj2 (parse_log_line_prefix_match example_line))).
  - apply (proj2 (proj2 (parse_log_line_prefix_match example_line))).
    apply matches_pattern_iff. vm_compute. eauto.
Defined.

(** ** The empty-input guard of [analyze_log] *)




(** ** The shape of the classifier's result *)

Lemma classify_counters_seek c :
  (access_pattern (classify_counters c) = unknown ∧
   seek_stats (classify_counters c) = None ∧
   total_transitions (classify_counters c) = 0%nat ∧
   (sequential_count c + random_count c = 0)%nat) ∨
  (access_pattern (classify_counters c) ≠ unknown ∧
   access_pattern (classify_counters c) ≠ insufficient_data ∧
   is_Some (seek_stats (classify_counters c)) ∧
   total_transitions (classify_counters c)
   = (sequential_count c + random_count c)%nat ∧
   (0 < sequential_count c + random_count c)%nat).
Proof.
  unfold classify_counters.
  destruct (Nat.eqb_spec (sequential_count c + random_count c) 0) as [E|E].
  - left. by repeat split.
  - right. simpl. repeat split; [| |eauto|lia].
    + destruct (PrimFloat.ltb _ _); [done|]. by destruct (PrimFloat.ltb _ _).
    + destruct (PrimFloat.ltb _ _); [done|]. by destruct (PrimFloat.ltb _ _).
Qed.

Lemma analyze_access_pattern_cases ops r :
  analyze_access_pattern ops = Some r →
  r = empty_result insufficient_data ∨
  ∃ c, r = classify_counters c.
Proof.
  unfold analyze_access_pattern. intros H.
  destruct (length _ <? 2)%nat; [left; by injection H|].
  destruct (group_by_inode _ _) as [g|]; [|done]. simpl in H.
  destruct (analyze_groups _ _) as [c|]; [|done]. simpl in H.
  right. exists c. by injection H.
Qed.

(** C10: a result labelled [insufficient_data] or [unknown] carries
    the four common keys only; the seek statistics are present in
    every other result and absent from these. *)
Theorem seek_stats_absent (ops : list Op.record) (r : AccessAnalysis) :
  analyze_access_pattern ops = Some r →
  (access_pattern r = insufficient_data ∨ access_pattern r = unknown
   ↔ seek_stats r = None).
Proof.
  intros [->|[c ->]]%analyze_access_pattern_cases.
  - split; [done|]. by left.
  - destruct (classify_counters_seek c)
      as [(Hp & Hs & _)|(Hp & Hp' & [s Hs] & _)].
    + split; [done|]. by right.
    + split; [intros [?|?]; done|]. by rewrite Hs.
Qed.

Lemma seek_stats_absent_witness :
  ∃ r, analyze_access_pattern [ex_r1] = Some r ∧ seek_stats r = None.
Proof.
  eexists. split; [reflexivity|].
  apply (seek_stats_absent [ex_r1] _ eq_refl). by left.
Defined.

(** ** The percentages *)





(** ** Counters *)

Section counters.

Lemma counters_add_assoc a b c :
  counters_add (counters_add a b) c = counters_add a (counters_add b c).
Proof.
  unfold counters_add. simpl. f_equal; try lia. by rewrite <-app_assoc.
Qed.

Lemma counters_add_0_r a : counters_add a (counters_of []) = a.
Proof.
  destruct a. unfold counters_add. simpl. f_equal; try lia.
  by rewrite app_nil_r.
Qed.

Lemma counters_add_0_l a : counters_add counters0 a = a.
Proof. by destruct a. Qed.

Lemma counters_of_app l1 l2 :
  counters_of (l1 ++ l2) = counters_add (counters_of l1) (counters_of l2).
Proof.
  unfold counters_of, counters_add. simpl.
  by rewrite !filter_app, !length_app, fmap_app.
Qed.

Lemma counters_of_cons p l :
  counters_of (p :: l) = counters_add (counters_of [p]) (counters_of l).
Proof. apply (counters_of_app [p] l). Qed.

Lemma counters_of_total l :
  (sequential_count (counters_of l) + random_count (counters_of l))%nat
  = length l.
Proof.
  induction l as [|p l IH]; [done|].
  rewrite counters_of_cons. simpl in *. rewrite !filter_cons, !filter_nil.
  destruct (decide (pair_kind p = Sequential));
    destruct (decide (pair_kind p ≠ Sequential)); simpl; try done; lia.
Qed.

(** One iteration of the loop adds the transition (prev, curr). *)
Lemma transition_spec prev curr c :
  has_extent prev → is_Some (Op.offset curr) →
  transition prev curr c = Some (counters_add c (counters_of [(prev, curr)])).
Proof.
  intros [[po Hpo] [ps Hps]] [co Hco].
  unfold transition, counters_of, counters_add.
  rewrite Hpo, Hps, Hco. simpl.
  rewrite !filter_cons, !filter_nil.
  unfold pair_kind, pair_distance, spec_classify, extent, seekDistance.
  simpl. rewrite Hpo, Hps, Hco. simpl.
  destruct (Z.leb_spec (Z.abs (co - (po + ps))) ps);
    [|destruct (Z.ltb_spec co po)];
    repeat case_decide; try lia; try done; simpl; f_equal; f_equal; lia.
Qed.


End counters.

(** ** The stable sort by timestamp *)

Section sorting.

Lemma insert_by_timestamp_perm x l : insert_by_timestamp x l ≡ₚ x :: l.
Proof.
  induction l as [|y l IH]; [done|]. simpl.
  destruct (String.leb _ _); [done|]. by rewrite IH, Permutation_swap.
Qed.

Lemma sort_by_timestamp_perm l : sort_by_timestamp l ≡ₚ l.
Proof.
  induction l as [|x l IH]; [done|]. simpl.
  by rewrite insert_by_timestamp_perm, IH.
Qed.

Lemma sort_by_timestamp_length l : length (sort_by_timestamp l) = length l.
Proof. by rewrite sort_by_timestamp_perm. Qed.

Lemma consecutive_short l : (length l < 2)%nat → consecutive l = [].
Proof. destruct l as [|x [|y l]]; simpl; [done..|lia]. Qed.

Lemma consecutive_length l : length (consecutive l) = pred (length l).
Proof.
  destruct l as [|x l]; [done|]. revert x.
  induction l as [|y l IH]; intros x; [done|].
  change (consecutive (x :: y :: l)) with ((x, y) :: consecutive (y :: l)).
  simpl. by rewrite IH.
Qed.

End sorting.

(** ** Grouping by inode *)

Section grouping.

Lemma lookup_group_append k' k op g :
  lookup_group k' (group_append k op g) =
  if decide (k' = k) then Some (default [] (lookup_group k g) ++ [op])
  else lookup_group k' g.
Proof.
  induction g as [|[k0 v0] g IH]; simpl.
  - by repeat case_decide.
  - destruct (decide (k = k0)) as [->|Hne]; simpl.
    + by repeat case_decide.
    + rewrite IH. repeat case_decide; by simplify_eq.
Qed.

Lemma group_append_fst k op g :
  (group_append k op g).*1 =
  if decide (k ∈ g.*1) then g.*1 else g.*1 ++ [k].
Proof.
  induction g as [|[k0 v0] g IH]; [done|].
  cbn [group_append]. destruct (decide (k = k0)) as [->|Hne].
  - rewrite !fmap_cons. cbn [fst]. rewrite decide_True by left. done.
  - rewrite !fmap_cons, IH. cbn [fst]. destruct (decide (k ∈ g.*1)).
    + rewrite decide_True by (by right). done.
    + rewrite decide_False; [done|]. by intros [?|?]%elem_of_cons.
Qed.

Lemma group_append_NoDup k op g :
  NoDup g.*1 → NoDup (group_append k op g).*1.
Proof.
  intros H. rewrite group_append_fst. case_decide as Hk; [done|].
  apply NoDup_app. split; [done|]. split; [|apply NoDup_singleton].
  intros x Hx ->%list_elem_of_singleton. done.
Qed.

Lemma lookup_group_elem k v g :
  NoDup g.*1 → (k, v) ∈ g → lookup_group k g = Some v.
Proof.
  induction g as [|[k0 v0] g IH]; intros Hnd Hin.
  - by apply elem_of_nil in Hin.
  - apply NoDup_cons in Hnd as [Hk0 Hnd]. simpl.
    apply elem_of_cons in Hin as [[= -> ->]|Hin]; [by case_decide|].
    case_decide as E; [|by apply IH]. subst. destruct Hk0.
    apply list_elem_of_fmap. by exists (k0, v).
Qed.

Lemma lookup_group_Some k v g : lookup_group k g = Some v → (k, v) ∈ g.
Proof.
  induction g as [|[k0 v0] g IH]; [done|]. simpl.
  case_decide as E; [intros [= ->]; subst; by left|]. right. by apply IH.
Qed.

Lemma members_snoc k l op :
  members k (l ++ [op]) =
  members k l ++ (if decide (Op.inode op = Some k) then [op] else []).
Proof.
  unfold members. rewrite filter_app, filter_cons, filter_nil.
  by case_decide.
Qed.

Lemma grouped_nil : grouped [] [].
Proof. split; [constructor|done]. Qed.

Lemma grouped_append l g k op :
  grouped l g → Op.inode op = Some k →
  grouped (l ++ [op]) (group_append k op g).
Proof.
  intros [Hnd Hl] Hk. split; [by apply group_append_NoDup|].
  intros k'. rewrite lookup_group_append, members_snoc, Hk.
  destruct (decide (k' = k)) as [->|Hne].
  - rewrite decide_True by done. rewrite Hl.
    by destruct (members k l).
  - rewrite decide_False by congruence. by rewrite Hl, app_nil_r.
Qed.

Lemma group_by_inode_spec rest l acc :
  grouped l acc →
  Forall (λ op, is_Some (Op.inode op)) rest →
  ∃ g, group_by_inode rest acc = Some g ∧ grouped (l ++ rest) g.
Proof.
  revert l acc. induction rest as [|op rest IH]; intros l acc Hg Hall.
  - exists acc. by rewrite app_nil_r.
  - apply Forall_cons in Hall as [[k Hk] Hall]. simpl. rewrite Hk. simpl.
    destruct (IH (l ++ [op]) (group_append k op acc)) as (g & Hg' & Hgr);
      [by apply grouped_append|done|].
    exists g. split; [done|]. by rewrite <-app_assoc in Hgr.
Qed.

Lemma group_by_inode_Some rest acc g :
  group_by_inode rest acc = Some g →
  Forall (λ op, is_Some (Op.inode op)) rest.
Proof.
  revert acc. induction rest as [|op rest IH]; intros acc H; [done|].
  simpl in H. destruct (Op.inode op) as [k|] eqn:Hk; [|done]. simpl in H.
  constructor; [by rewrite Hk|by eapply IH].
Qed.

Lemma group_by_inode_grouped io g :
  group_by_inode io [] = Some g → grouped io g.
Proof.
  intros H.
  destruct (group_by_inode_spec io [] [] grouped_nil
              (group_by_inode_Some _ _ _ H)) as (g' & Hg' & Hgr).
  rewrite H in Hg'. by injection Hg' as <-.
Qed.

Lemma grouped_elem l g k v : grouped l g → (k, v) ∈ g → v = members k l.
Proof.
  intros [Hnd Hl] Hin. apply (lookup_group_elem _ _ _ Hnd) in Hin.
  rewrite Hl in Hin. destruct (members k l); by simplify_eq.
Qed.


End grouping.

(** ** The classifier, transition by transition *)

Lemma all_transitions_cons k ops g :
  all_transitions ((k, ops) :: g)
  = consecutive (sort_by_timestamp ops) ++ all_transitions g.
Proof. reflexivity. Qed.







(** ** The overall label *)

Section overall.





Lemma grouped_members l g k :
  grouped l g → members k l ≠ [] → (k, members k l) ∈ g.
Proof.
  intros [_ Hl] Hne. apply lookup_group_Some. rewrite Hl.
  by destruct (members k l).
Qed.


End overall.



(** ** Order of the input *)

Section sorted.

Lemma ts_le_total a b : ts_le a b ∨ ts_le b a.
Proof. apply String.leb_total. Qed.

Lemma ts_le_trans a b c : ts_le a b → ts_le b c → ts_le a c.
Proof.
  unfold ts_le. intros H1%Is_true_true H2%Is_true_true. apply Is_true_true.
  exact (transitivity (R:=String.le) H1 H2).
Qed.

Lemma ts_le_antisym a b :
  ts_le a b → ts_le b a → Op.timestamp a = Op.timestamp b.
Proof. apply String.leb_antisym. Qed.

Global Instance ts_le_transitive : Transitive ts_le.
Proof. intros a b c. apply ts_le_trans. Qed.

Lemma insert_by_timestamp_hd x y l :
  ts_le y x → HdRel ts_le y l → HdRel ts_le y (insert_by_timestamp x l).
Proof.
  intros Hyx Hl. destruct l as [|z l]; simpl; [by constructor|].
  destruct (String.leb _ _); constructor; [done|]. by inversion Hl.
Qed.

Lemma insert_by_timestamp_sorted x l :
  Sorted ts_le l → Sorted ts_le (insert_by_timestamp x l).
Proof.
  induction 1 as [|y l Hs IH Hhd]; simpl; [by repeat constructor|].
  destruct (String.leb (Op.timestamp x) (Op.timestamp y)) eqn:E.
  - constructor; [by constructor|]. by constructor.
  - constructor; [done|]. apply insert_by_timestamp_hd; [|done].
    destruct (ts_le_total x y) as [H|H]; [|done].
    unfold ts_le in H. congruence.
Qed.

Lemma sort_by_timestamp_sorted l : Sorted ts_le (sort_by_timestamp l).
Proof.
  induction l as [|x l IH]; [constructor|].
  by apply insert_by_timestamp_sorted.
Qed.

(** Sorting forgets the input order when equal timestamps mean equal
    records. *)
Lemma sort_by_timestamp_unique l l' :
  l ≡ₚ l' →
  (∀ x y, x ∈ l → y ∈ l → Op.timestamp x = Op.timestamp y → x = y) →
  sort_by_timestamp l = sort_by_timestamp l'.
Proof.
  intros Hp Hinj. apply (Sorted_unique_strong ts_le).
  - intros x y Hx Hy Hxy Hyx. apply Hinj.
    + by rewrite sort_by_timestamp_perm in Hx.
    + by rewrite sort_by_timestamp_perm, <-Hp in Hy.
    + by apply ts_le_antisym.
  - apply sort_by_timestamp_sorted.
  - apply sort_by_timestamp_sorted.
  - by rewrite !sort_by_timestamp_perm.
Qed.

End sorted.

Section aggregates.

Lemma sum_Z_perm l l' : l ≡ₚ l' → sum_Z l = sum_Z l'.
Proof.
  unfold sum_Z. induction 1; simpl; [done|congruence|lia|congruence].
Qed.

Lemma foldl_max_spec x l :
  foldl Z.max x l ∈ x :: l ∧ Forall (λ y, y <= foldl Z.max x l) (x :: l).
Proof.
  revert x. induction l as [|y l IH]; intros x; simpl.
  - split; [left|]. by repeat constructor.
  - destruct (IH (Z.max x y)) as [Hin Hall].
    apply Forall_cons in Hall as [Hm Hall]. split.
    + apply elem_of_cons in Hin as [->|Hin]; [|by do 2 right].
      destruct (Z.max_spec x y) as [[_ ->]|[_ ->]]; [right|]; left.
    + repeat constructor; [lia|lia|done].
Qed.

Lemma max_Z_perm l l' : l ≡ₚ l' → max_Z l = max_Z l'.
Proof.
  intros Hp. destruct l as [|x l], l' as [|x' l']; [done| | |].
  - by apply Permutation_nil_cons in Hp.
  - symmetry in Hp. by apply Permutation_nil_cons in Hp.
  - simpl. destruct (foldl_max_spec x l) as [Hin Hall].
    destruct (foldl_max_spec x' l') as [Hin' Hall'].
    rewrite Forall_forall in Hall, Hall'.
    rewrite Hp in Hin. rewrite <-Hp in Hin'.
    pose proof (Hall _ Hin') as H1. pose proof (Hall' _ Hin) as H2.
    simpl in H1, H2. lia.
Qed.

Lemma classify_counters_perm l l' :
  l ≡ₚ l' →
  classify_counters (counters_of l) = classify_counters (counters_of l').
Proof.
  intros Hp. unfold classify_counters, counters_of.
  cbn [sequential_count random_count c_backward_seeks c_forward_seeks
       seek_distances].
  assert (pair_distance <$> l ≡ₚ pair_distance <$> l') as Hd by by rewrite Hp.
  rewrite !(Permutation_length (filter_Permutation _ _ _ Hp)).
  destruct (_ =? 0)%nat; [done|]. f_equal. f_equal. f_equal.
  - destruct (pair_distance <$> l) eqn:E, (pair_distance <$> l') eqn:E';
      [done| | |].
    + by apply Permutation_nil_cons in Hd.
    + symmetry in Hd. by apply Permutation_nil_cons in Hd.
    + unfold mean_Z. by rewrite (sum_Z_perm _ _ Hd), (Permutation_length Hd).
  - destruct (pair_distance <$> l) eqn:E, (pair_distance <$> l') eqn:E';
      [done| | |].
    + by apply Permutation_nil_cons in Hd.
    + symmetry in Hd. by apply Permutation_nil_cons in Hd.
    + by apply max_Z_perm.
Qed.

End aggregates.

(** ** The classifier without assumptions on the records *)

Section general.

Lemma transition_None prev curr c :
  ¬ pair_ok (prev, curr) → transition prev curr c = None.
Proof.
  unfold pair_ok, has_extent, transition. simpl. intros H.
  destruct (Op.offset prev) as [po|]; [|done].
  destruct (Op.size prev) as [ps|]; [|done].
  destruct (Op.offset curr) as [co|]; [|done].
  destruct H. eauto.
Qed.

Lemma transition_Some prev curr c :
  pair_ok (prev, curr) →
  transition prev curr c = Some (counters_add c (counters_of [(prev, curr)])).
Proof. intros [H1 H2]. by apply transition_spec. Qed.

Lemma transitions_general prev rest c :
  transitions prev rest c =
  if decide (Forall pair_ok (consecutive (prev :: rest)))
  then Some (counters_add c (counters_of (consecutive (prev :: rest))))
  else None.
Proof.
  revert prev c. induction rest as [|curr rest IH]; intros prev c.
  - cbn [transitions analyze_groups].
    rewrite decide_True by constructor. by rewrite counters_add_0_r.
  - change (consecutive (prev :: curr :: rest))
      with ((prev, curr) :: consecutive (curr :: rest)).
    cbn [transitions]. destruct (decide (pair_ok (prev, curr))) as [Hp|Hp].
    + rewrite transition_Some by done. simpl. rewrite IH.
      destruct (decide (Forall pair_ok (consecutive (curr :: rest)))).
      * rewrite decide_True by by constructor.
        by rewrite counters_add_assoc, <-counters_of_cons.
      * rewrite decide_False; [done|]. by intros [? ?]%Forall_cons.
    + rewrite transition_None by done. simpl.
      rewrite decide_False; [done|]. by intros [? ?]%Forall_cons.
Qed.

Lemma analyze_groups_general g c :
  analyze_groups g c =
  if decide (Forall pair_ok (all_transitions g))
  then Some (counters_add c (counters_of (all_transitions g)))
  else None.
Proof.
  revert c. induction g as [|[k ops] g IH]; intros c.
  - cbn [transitions analyze_groups].
    rewrite decide_True by constructor. by rewrite counters_add_0_r.
  - rewrite all_transitions_cons. cbn [analyze_groups].
    destruct (Nat.ltb_spec (length ops) 2) as [Hlen|Hlen].
    + rewrite consecutive_short by (by rewrite sort_by_timestamp_length).
      apply IH.
    + pose proof (sort_by_timestamp_length ops) as Hl.
      destruct (sort_by_timestamp ops) as [|first others];
        [simpl in Hl; lia|].
      rewrite transitions_general.
      destruct (decide (Forall pair_ok (consecutive (first :: others)))).
      * simpl. rewrite IH.
        destruct (decide (Forall pair_ok (all_transitions g))).
        -- rewrite decide_True by by apply Forall_app.
           by rewrite counters_of_app, counters_add_assoc.
        -- rewrite decide_False; [done|]. by intros [? ?]%Forall_app.
      * simpl. rewrite decide_False; [done|]. by intros [? ?]%Forall_app.
Qed.

Lemma group_by_inode_None io acc :
  ¬ Forall (λ op, is_Some (Op.inode op)) io → group_by_inode io acc = None.
Proof.
  intros H. destruct (group_by_inode io acc) eqn:E; [|done].
  destruct H. by eapply group_by_inode_Some.
Qed.

Lemma grouped_fst l g k : grouped l g → (k ∈ g.*1 ↔ members k l ≠ []).
Proof.
  intros Hg. split.
  - intros ((k' & v) & -> & Hin)%list_elem_of_fmap. simpl.
    destruct Hg as [Hnd Hl]. apply (lookup_group_elem _ _ _ Hnd) in Hin.
    rewrite Hl in Hin. by destruct (members k' l).
  - intros Hne. apply list_elem_of_fmap. exists (k, members k l).
    split; [done|]. by apply grouped_members.
Qed.

Lemma grouped_map l g : grouped l g → g = (λ k, (k, members k l)) <$> g.*1.
Proof.
  intros Hg.
  assert (Forall (λ e, e = (e.1, members e.1 l)) g) as H.
  { apply Forall_forall. intros [k v] Hin. simpl.
    by rewrite <-(grouped_elem _ _ _ _ Hg Hin). }
  clear Hg. induction H as [|e g He _ IH]; [done|].
  rewrite !fmap_cons. by rewrite <-He, <-IH.
Qed.

(** The transitions of the two groupings of a permuted input are the
    same up to order, if within an inode equal timestamps mean equal
    records. *)
Lemma all_transitions_perm l l' g g' :
  l ≡ₚ l' → grouped l g → grouped l' g' →
  (∀ x y, x ∈ l → y ∈ l → Op.inode x = Op.inode y →
          Op.timestamp x = Op.timestamp y → x = y) →
  all_transitions g ≡ₚ all_transitions g'.
Proof.
  intros Hp Hg Hg' Hinj.
  assert (∀ k, members k l ≡ₚ members k l') as Hm.
  { intros k. unfold members. by rewrite Hp. }
  assert (g.*1 ≡ₚ g'.*1) as Hk.
  { apply NoDup_Permutation; [apply Hg|apply Hg'|].
    intros k. rewrite (grouped_fst _ _ _ Hg), (grouped_fst _ _ _ Hg').
    split; intros H E.
    - apply H. apply Permutation_nil. by rewrite Hm, E.
    - apply H. apply Permutation_nil. by rewrite <-Hm, E. }
  assert (∀ m h, grouped m h →
            all_transitions h
            = concat ((λ k, consecutive (sort_by_timestamp (members k m)))
                        <$> h.*1)) as Hall.
  { intros m h Hh. unfold all_transitions.
    rewrite (grouped_map _ _ Hh) at 1. by rewrite <-list_fmap_compose. }
  rewrite (Hall _ _ Hg), (Hall _ _ Hg'), <-Hk.
  assert ((λ k, consecutive (sort_by_timestamp (members k l'))) <$> g.*1
          = (λ k, consecutive (sort_by_timestamp (members k l))) <$> g.*1)
    as ->; [|done].
  apply list_fmap_ext. intros i k _. f_equal. symmetry.
  apply sort_by_timestamp_unique; [done|].
  intros x y [Hx Hxl]%list_elem_of_filter [Hy Hyl]%list_elem_of_filter.
  apply Hinj; [done|done|congruence].
Qed.

End general.

(** C7, the claim as stated fails: two reads of one inode with the
    same timestamp are classified by their order in the input, as the
    sort is stable. *)
Lemma classifier_depends_on_tie_order :
  [tie_a; tie_b] ≡ₚ [tie_b; tie_a] ∧
  ∃ r r', analyze_access_pattern [tie_a; tie_b] = Some r ∧
          analyze_access_pattern [tie_b; tie_a] = Some r' ∧
          access_pattern r = sequential ∧ access_pattern r' = random.
Proof.
  split; [apply Permutation_swap|].
  do 2 eexists. split; [vm_compute; reflexivity|].
  split; [vm_compute; reflexivity|]. by split.
Qed.

(** C7, amended: the classifier gives equal results on a record
    sequence and on any permutation of it, provided that no two
    distinct qualifying records of one inode carry the same timestamp. *)
Theorem classifier_permutation_invariant (ops ops' : list Op.record) :
  ops ≡ₚ ops' →
  (∀ x y, x ∈ ops → y ∈ ops → is_io_op x = true → is_io_op y = true →
          Op.inode x = Op.inode y → Op.timestamp x = Op.timestamp y →
          x = y) →
  analyze_access_pattern ops = analyze_access_pattern ops'.
Proof.
  intros Hp Hinj. unfold analyze_access_pattern.
  set (io := filter (λ op, is_io_op op = true) ops).
  set (io' := filter (λ op, is_io_op op = true) ops').
  assert (io ≡ₚ io') as Hio by (unfold io, io'; by rewrite Hp).
  rewrite <-(Permutation_length Hio).
  destruct (length io <? 2)%nat; [done|].
  destruct (decide (Forall (λ op, is_Some (Op.inode op)) io)) as [Hall|Hall].
  - destruct (group_by_inode_spec io [] [] grouped_nil Hall)
      as (g & -> & Hg).
    rewrite Hio in Hall.
    destruct (group_by_inode_spec io' [] [] grouped_nil Hall)
      as (g' & -> & Hg').
    simpl. rewrite !analyze_groups_general.
    assert (all_transitions g ≡ₚ all_transitions g') as Ht.
    { apply (all_transitions_perm io io'); [done..|].
      intros x y [Hx Hxl]%list_elem_of_filter [Hy Hyl]%list_elem_of_filter.
      by apply Hinj. }
    destruct (decide (Forall pair_ok (all_transitions g))) as [Hok|Hok].
    + rewrite decide_True by by rewrite <-Ht.
      simpl. rewrite !counters_add_0_l. f_equal.
      by apply classify_counters_perm.
    + rewrite decide_False; [done|]. by rewrite <-Ht.
  - rewrite (group_by_inode_None io) by done.
    rewrite (group_by_inode_None io'); [done|]. by rewrite <-Hio.
Qed.

Lemma classifier_permutation_invariant_witness :
  analyze_access_pattern [ex_r3; ex_r1; ex_other_inode; ex_r2]
  = analyze_access_pattern [ex_r1; ex_other_inode; ex_r2; ex_r3].
Proof.
  apply classifier_permutation_invariant.
  - apply (Permutation_cons_append [ex_r1; ex_other_inode; ex_r2] ex_r3).
  - intros x y Hx Hy _ _ Hi Ht.
    repeat (apply elem_of_cons in Hx as [->|Hx]);
      [..|by apply elem_of_nil in Hx];
      repeat (apply elem_of_cons in Hy as [->|Hy]);
      try (by apply elem_of_nil in Hy); try done;
      try (by vm_compute in Ht); by vm_compute in Hi.
Defined.

(** ** The counters of [analyze_io_behavior] *)

Section io_behavior.

Lemma count_truthy_keys f d :
  count_truthy f d = count_keys d (option_list (truthy_field f)).
Proof.
  unfold count_truthy, truthy_field. destruct f as [v|]; [|done].
  by destruct (truthy v).
Qed.

Lemma count_keys_app d l1 l2 :
  count_keys d (l1 ++ l2) = count_keys (count_keys d l1) l2.
Proof. apply foldl_app. Qed.

Lemma omap_cons_option_list {A B} (f : A → option B) x l :
  omap f (x :: l) = option_list (f x) ++ omap f l.
Proof. simpl. by destruct (f x). Qed.

Lemma io_loop_spec ops st :
  foldl io_step st ops
  = (count_keys st.1 (handle_keys ops), count_keys st.2 (inode_keys ops)).
Proof.
  revert st. induction ops as [|op ops IH]; intros [hu io]; [done|].
  cbn [foldl]. rewrite IH. unfold handle_keys, inode_keys.
  rewrite !omap_cons_option_list, !count_keys_app.
  unfold io_step. cbn [fst snd]. by rewrite !count_truthy_keys.
Qed.

Lemma occurrences_cons k x keys :
  occurrences k (x :: keys) =
  ((if decide (x = k) then 1 else 0) + occurrences k keys)%nat.
Proof. unfold occurrences. rewrite filter_cons. by case_decide. Qed.

Lemma count_keys_lookup d keys k :
  count_keys d keys !! k =
  match d !! k with
  | Some m => Some (m + occurrences k keys)%nat
  | None => if decide (occurrences k keys = 0%nat) then None
            else Some (occurrences k keys)
  end.
Proof.
  revert d. induction keys as [|x keys IH]; intros d.
  - simpl. unfold occurrences. simpl. destruct (d !! k); [|done].
    f_equal. lia.
  - cbn [count_keys foldl]. fold (count_keys (incr x d) keys).
    rewrite IH, occurrences_cons. unfold incr.
    destruct (decide (x = k)) as [->|Hne].
    + rewrite lookup_insert_eq. destruct (d !! k); simpl.
      * f_equal. lia.
      * done.
    + rewrite lookup_insert_ne by done. by destruct (d !! k).
Qed.

Lemma occurrences_pos k keys : (0 < occurrences k keys)%nat ↔ k ∈ keys.
Proof.
  unfold occurrences. split.
  - intros H. destruct (filter (λ x, x = k) keys) as [|y t] eqn:E;
      [simpl in H; lia|].
    assert (y ∈ filter (λ x, x = k) keys) as Hy by (rewrite E; left).
    by apply list_elem_of_filter in Hy as [-> ?].
  - intros H.
    assert (k ∈ filter (λ x, x = k) keys) as Hk
      by by apply list_elem_of_filter.
    destruct (filter (λ x, x = k) keys); [by apply elem_of_nil in Hk|].
    simpl. lia.
Qed.

Lemma count_keys_empty_lookup keys k n :
  count_keys ∅ keys !! k = Some n ↔
  n = occurrences k keys ∧ (0 < n)%nat.
Proof.
  rewrite count_keys_lookup, lookup_empty.
  case_decide as E; split; [done|lia|intros [= <-]; lia|].
  intros [-> _]. done.
Qed.

Lemma count_keys_dom keys :
  dom (count_keys ∅ keys) = (list_to_set keys : gset pyval).
Proof.
  apply set_eq. intros k. rewrite elem_of_dom, elem_of_list_to_set.
  rewrite <-occurrences_pos. split.
  - intros [n [-> Hn]%count_keys_empty_lookup]. done.
  - intros H. exists (occurrences k keys).
    by apply count_keys_empty_lookup.
Qed.

(** The number of values above a bound is the number of keys whose
    value is above it. *)
Lemma values_above_size (m : gmap pyval nat) (b : nat) :
  length (filter (λ count, (b < count)%nat) (map_to_list m).*2)
  = size (filter (λ kv : pyval * nat, (b < kv.2)%nat) m).
Proof.
  induction m as [|k v m Hk IH] using map_ind.
  - by rewrite map_to_list_empty, map_filter_empty, map_size_empty.
  - rewrite map_to_list_insert by done.
    rewrite fmap_cons, filter_cons. cbn [snd].
    destruct (decide (b < v)%nat) as [Hb|Hb].
    + rewrite map_filter_insert_True by done.
      rewrite map_size_insert_None; [simpl; by rewrite IH|].
      rewrite map_lookup_filter_None. by left.
    + rewrite map_filter_insert_False by done.
      rewrite IH. by rewrite (delete_id m k).
Qed.

Lemma high_activity_dom keys (b : nat) :
  dom (filter (λ kv : pyval * nat, (b < kv.2)%nat) (count_keys ∅ keys))
  = filter (λ k, (b < occurrences k keys)%nat) (list_to_set keys : gset pyval).
Proof.
  apply dom_filter_L. intros k.
  rewrite elem_of_filter, elem_of_list_to_set, <-occurrences_pos. split.
  - intros [Hb Hpos]. exists (occurrences k keys). split; [|done].
    by apply count_keys_empty_lookup.
  - intros (n & [-> Hn]%count_keys_empty_lookup & Hb). done.
Qed.

End io_behavior.

(** C4, the claim as stated fails: a read whose handle is 0 has a
    non-null handle, yet it is not counted. *)
Lemma zero_handle_not_counted :
  ∃ op r, parse_log_line zero_handle_line = Ok (Some op) ∧
          Op.handle op = Some (VInt 0) ∧
          analyze_io_behavior [op] = Some r ∧
          unique_handles r = 0%nat.
Proof.
  do 2 eexists. split; [vm_compute; reflexivity|].
  split; [reflexivity|]. split; [vm_compute; reflexivity|]. reflexivity.
Qed.

(** C4, amended: a record contributes to the per-handle counts exactly
    when its handle is present and true in a condition (not null and
    not the integer 0), so [unique_handles] is the number of distinct
    such handle values; likewise for inodes, and the high-activity
    count is the number of distinct such inodes that occur in more
    than 100 records. *)
Theorem io_behavior_counts (ops : list Op.record) (r : IoBehavior) :
  analyze_io_behavior ops = Some r →
  (∀ k n, (foldl io_step (∅, ∅) ops).1 !! k = Some n ↔
          n = occurrences k (handle_keys ops) ∧ (0 < n)%nat) ∧
  (∀ k n, (foldl io_step (∅, ∅) ops).2 !! k = Some n ↔
          n = occurrences k (inode_keys ops) ∧ (0 < n)%nat) ∧
  unique_handles r = size (list_to_set (handle_keys ops) : gset pyval) ∧
  high_activity_files r
  = size (filter (λ k, (100 < occurrences k (inode_keys ops))%nat)
            (list_to_set (inode_keys ops) : gset pyval)).
Proof.
  intros H. rewrite io_loop_spec. cbn [fst snd].
  split; [intros k n; apply count_keys_empty_lookup|].
  split; [intros k n; apply count_keys_empty_lookup|].
  unfold analyze_io_behavior in H. destruct ops as [|op ops]; [done|].
  rewrite io_loop_spec in H. cbn [fst snd] in H. injection H as <-.
  cbn [unique_handles high_activity_files]. split.
  - by rewrite <-size_dom, count_keys_dom.
  - by rewrite values_above_size, <-size_dom, high_activity_dom.
Qed.

(** 150 operations on inode 42: one high-activity file, inode 42. *)
Lemma io_behavior_counts_witness :
  ∃ r, analyze_io_behavior (inode_42 150) = Some r ∧
       high_activity_files r = 1%nat ∧
       filter (λ k, (100 < occurrences k (inode_keys (inode_42 150)))%nat)
         (list_to_set (inode_keys (inode_42 150)) : gset pyval)
       = {[VInt 42]}.
Proof.
  eexists. split; [reflexivity|].
  destruct (io_behavior_counts (inode_42 150) _ eq_refl) as (_ & _ & _ & ->).
  assert (filter (λ k, (100 < occurrences k (inode_keys (inode_42 150)))%nat)
            (list_to_set (inode_keys (inode_42 150)) : gset pyval)
          = {[VInt 42]}) as ->; [|by rewrite size_singleton].
  apply set_eq. intros k.
  rewrite elem_of_filter, elem_of_list_to_set, elem_of_singleton.
  split.
  - intros [_ Hk]. vm_compute in Hk.
    repeat (apply elem_of_cons in Hk as [->|Hk]; [done|]).
    by apply elem_of_nil in Hk.
  - intros ->. split; [vm_compute; lia|]. vm_compute. left.
Defined.

(** * Further properties of the parser *)

Section conversions.

Lemma int_digits_nonneg s acc prev z :
  0 <= acc → Py.int_digits acc prev s = Some z → 0 <= z.
Proof.
  revert acc prev. induction s as [|c s IH]; intros acc prev Hacc H.
  - simpl in H. destruct prev; by simplify_eq.
  - simpl in H. destruct (Py.is_digit c) eqn:Hc.
    + eapply IH; [|exact H]. unfold Py.digit_val.
      unfold Py.is_digit in Hc. apply andb_true_iff in Hc as [H1%N.leb_le _].
      lia.
    + destruct ((Py.code c =? 95)%N && prev); [|done]. by eapply IH.
Qed.

Lemma int_digits_total s acc prev :
  chars Py.is_digit s → (s ≠ EmptyString ∨ prev = true) →
  is_Some (Py.int_digits acc prev s).
Proof.
  revert acc prev. induction s as [|c s IH]; intros acc prev Hch Hne.
  - destruct Hne as [?| ->]; [done|]. simpl. eauto.
  - unfold chars in Hch. simpl in Hch.
    apply andb_true_iff in Hch as [Hc Hch]. simpl. rewrite Hc.
    apply IH; [done|]. by right.
Qed.

Lemma lstrip_id s : stops Py.is_space s → Py.lstrip s = s.
Proof. destruct s as [|c s]; [done|]. simpl. by intros ->. Qed.

Lemma rstrip_id s :
  chars (λ c, negb (Py.is_space c)) s → Py.rstrip s = s.
Proof.
  unfold chars. induction s as [|c s IH]; [done|]. simpl.
  intros [Hc Hs]%andb_true_iff. apply negb_true_iff in Hc.
  by rewrite Hc, IH.
Qed.

Lemma chars_impl (p q : ascii → bool) s :
  (∀ c, p c = true → q c = true) → chars p s → chars q s.
Proof.
  unfold chars. intros Hpq. induction s as [|c s IH]; [done|]. simpl.
  intros [Hc Hs]%andb_true_iff. by rewrite (Hpq _ Hc), IH.
Qed.

Lemma strip_digits s : chars Py.is_digit s → Py.strip s = s.
Proof.
  intros H. unfold Py.strip. rewrite lstrip_id.
  - apply rstrip_id. eapply chars_impl; [|exact H].
    intros c Hc. by rewrite (digit_not_space _ Hc).
  - destruct s as [|c s]; [done|]. unfold chars in H. simpl in *.
    apply andb_true_iff in H as [Hc _]. by apply digit_not_space.
Qed.

(** [int] of a run of digits: never an exception, never negative. *)
Lemma int_of_digits s :
  nonempty Py.is_digit s → ∃ n, Py.int s = Ok n ∧ 0 <= n.
Proof.
  intros [Hne Hch]. unfold Py.int. rewrite strip_digits by done.
  destruct s as [|c s]; [done|].
  assert (Py.is_digit c = true) as Hc.
  { unfold chars in Hch. simpl in Hch. by apply andb_true_iff in Hch as [? _]. }
  assert ((Py.code c =? 45)%N = false ∧ (Py.code c =? 43)%N = false)
    as [-> ->].
  { unfold Py.is_digit in Hc. apply andb_true_iff in Hc as [H1%N.leb_le _].
    split; apply N.eqb_neq; lia. }
  destruct (int_digits_total (String c s) 0 false Hch) as [z Hz];
    [by left|].
  rewrite Hz. exists z. split; [done|]. by eapply int_digits_nonneg.
Qed.

Lemma int_raises s e : Py.int s = Raise e → e = ValueError.
Proof.
  unfold Py.int. destruct (Py.strip s) as [|c r]; [congruence|].
  repeat match goal with
  | |- context [if ?b then _ else _] => destruct b
  | |- context [match ?o with Some _ => _ | None => _ end] => destruct o
  end; congruence.
Qed.

Lemma float_raises s e : Py.float s = Raise e → e = ValueError.
Proof. unfold Py.float. destruct (Py.float_digits _ _ _ _ _); congruence. Qed.

Lemma float_digits_nonneg s num den seen nd q :
  0 <= num → Py.float_digits num den seen nd s = Some q → (0 <= q)%Q.
Proof.
  revert num den seen nd. induction s as [|c s IH]; intros num den seen nd Hn H.
  - simpl in H. destruct (0 <? nd)%nat; [|done]. injection H as <-.
    unfold Qle. simpl. lia.
  - simpl in H. destruct (Py.is_digit c) eqn:Hc.
    + eapply IH; [|exact H]. unfold Py.digit_val.
      unfold Py.is_digit in Hc. apply andb_true_iff in Hc as [H1%N.leb_le _].
      lia.
    + destruct ((Py.code c =? 46)%N && negb seen); [|done]. by eapply IH.
Qed.

Lemma split_comma_length s : length (Py.split_comma s) = S (commas s).
Proof.
  induction s as [|c s IH]; [done|]. simpl.
  destruct (Py.code c =? 44)%N; simpl; [by rewrite IH|].
  destruct (Py.split_comma s); simpl in *; lia.
Qed.

End conversions.

Section parser_invariants.

(** Splits a hypothesis about [parse_log_line] into the branches of
    the function. *)
Ltac parse_cases H :=
  repeat match type of H with
  | context [rbind ?m _] =>
      let E := fresh "E" in destruct m eqn:E; cbn [rbind] in H
  | context [if ?b then _ else _] => destruct b
  | context [match ?l with [] => _ | _ :: _ => _ end] => destruct l
  | context [match ?o with Some _ => _ | None => _ end] => destruct o
  end.

Ltac raise_cases :=
  repeat match goal with
  | E : Py.int _ = Raise _ |- _ => apply int_raises in E
  | E : Py.float _ = Raise _ |- _ => apply float_raises in E
  | E : context [if ?b then _ else _] |- _ => destruct b
  | E : context [match ?o with Some _ => _ | None => _ end] |- _ =>
      destruct o
  | E : rbind ?m _ = _ |- _ =>
      let E' := fresh "E" in destruct m eqn:E'; cbn [rbind] in E
  end.

Lemma parse_log_line_io_fields line r :
  parse_log_line line = Ok (Some r) → is_io_op r = true →
  ∃ inode size offset handle,
    Op.inode r = Some (VInt inode) ∧ Op.size r = Some size ∧
    Op.offset r = Some offset ∧ Op.handle r = Some (VInt handle).
Proof.
  intros H Hio. unfold is_io_op in Hio.
  apply andb_true_iff in Hio as [_ [o Ho]%bool_decide_eq_true].
  unfold parse_log_line in H. parse_cases H; simplify_eq/=; eauto 10.
Qed.

(** X1: a read or write record with an offset has all four fields of
    the operation, each an integer. *)
Theorem io_record_fields (line : string) (r : Op.record) :
  parse_log_line line = Ok (Some r) → is_io_op r = true →
  ∃ inode size offset handle,
    Op.inode r = Some (VInt inode) ∧ Op.size r = Some size ∧
    Op.offset r = Some offset ∧ Op.handle r = Some (VInt handle).
Proof. apply parse_log_line_io_fields. Qed.

Lemma io_record_fields_witness :
  ∃ r inode size offset handle,
    parse_log_line example_line = Ok (Some r) ∧
    Op.inode r = Some (VInt inode) ∧ Op.size r = Some size ∧
    Op.offset r = Some offset ∧ Op.handle r = Some (VInt handle).
Proof.
  eexists.
  destruct (io_record_fields example_line _ eq_refl eq_refl)
    as (i & s & o & h & H).
  exists i, s, o, h. split; [reflexivity|exact H].
Defined.


(** X2: the parser raises [ValueError] only, and only on a line that
    matches the pattern. *)
Theorem parse_log_line_raises (line : string) (e : exn) :
  parse_log_line line = Raise e →
  e = ValueError ∧ matches_pattern (Py.strip line).
Proof.
  intros H. split.
  - unfold parse_log_line in H. parse_cases H; simplify_eq/=;
      raise_cases; congruence.
  - apply matches_pattern_iff.
    unfold parse_log_line in H. by destruct (Re.match_line _).
Qed.

Lemma parse_log_line_raises_witness :
  parse_log_line bad_duration_line = Raise ValueError ∧
  matches_pattern (Py.strip bad_duration_line).
Proof.
  assert (parse_log_line bad_duration_line = Raise ValueError) as H
    by (vm_compute; reflexivity).
  split; [exact H|]. exact (proj2 (parse_log_line_raises _ _ H)).
Defined.

(** X3: a matching line whose duration text is not a number is not
    skipped: the conversion fails and the parser raises. *)
Theorem bad_duration_raises (line : string) (g : Re.groups) :
  Re.match_line (Py.strip line) = Some g →
  Py.float (Re.g_duration g) = Raise ValueError →
  parse_log_line line = Raise ValueError.
Proof.
  intros Hg Hd.
  destruct (match_line_Some _ _ Hg) as (rest & _ & Hu & Hgi & Hp & _).
  destruct (int_of_digits _ Hu) as (u & Eu & _).
  destruct (int_of_digits _ Hgi) as (gi & Egi & _).
  destruct (int_of_digits _ Hp) as (p & Ep & _).
  unfold parse_log_line. rewrite Hg, Eu, Egi, Ep, Hd. reflexivity.
Qed.

Lemma bad_duration_raises_witness :
  parse_log_line bad_duration_line = Raise ValueError.
Proof.
  destruct (Re.match_line (Py.strip bad_duration_line)) as [g|] eqn:Hg;
    [|by vm_compute in Hg].
  apply (bad_duration_raises _ g Hg).
  vm_compute in Hg. injection Hg as <-. reflexivity.
Defined.

(** X4: the identifiers and the duration of a record are never
    negative, and the argument list has one element more than the
    argument text has commas. *)
Theorem generic_fields_ranges (line : string) (r : Op.record) :
  parse_log_line line = Ok (Some r) →
  0 <= Op.uid r ∧ 0 <= Op.gid r ∧ 0 <= Op.pid r ∧ (0 <= Op.duration r)%Q ∧
  ∃ g, Re.match_line (Py.strip line) = Some g ∧
       length (Op.args r) = S (commas (Re.g_args g)).
Proof.
  intros H.
  destruct (parse_log_line_fields _ _ H)
    as (g & Hg & _ & Hu & Hgi & Hp & _ & Hd & Ha & _).
  destruct (match_line_Some _ _ Hg) as (rest & _ & Hu' & Hgi' & Hp' & _).
  destruct (int_of_digits _ Hu') as (u & Eu & ?).
  destruct (int_of_digits _ Hgi') as (gi & Egi & ?).
  destruct (int_of_digits _ Hp') as (p & Ep & ?).
  repeat split; try congruence.
  - unfold Py.float in Hd.
    destruct (Py.float_digits 0 1 false 0 (Re.g_duration g)) as [q|] eqn:Eq;
      [|done].
    injection Hd as <-. eapply float_digits_nonneg; [|exact Eq]. lia.
  - exists g. split; [done|].
    by rewrite Ha, length_fmap, split_comma_length.
Qed.

Lemma generic_fields_ranges_witness :
  ∃ r, parse_log_line example_line = Ok (Some r) ∧
       0 <= Op.uid r ∧ 0 <= Op.pid r ∧ length (Op.args r) = 4%nat.
Proof.
  eexists. split; [vm_compute; reflexivity|].
  destruct (generic_fields_ranges example_line _ eq_refl)
    as (Hu & _ & Hp & _ & _).
  split; [exact Hu|]. split; [exact Hp|reflexivity].
Defined.

End parser_invariants.

(** * The record stream and [analyze_log] *)

Section record_stream.

Lemma read_operations_omap lines ops :
  read_operations lines = Ok ops ↔
  Forall (λ line, ¬ raises line) lines ∧ ops = omap record_of lines.
Proof.
  revert ops. induction lines as [|line lines IH]; intros ops.
  - simpl. split; [intros [= <-]; by split|intros [_ ->]; done].
  - rewrite Forall_cons.
    change (omap record_of (line :: lines))
      with (match record_of line with
            | Some r => r :: omap record_of lines
            | None => omap record_of lines
            end).
    cbn [read_operations]. unfold record_of at 1, raises at 1.
    destruct (parse_log_line line) as [o|e] eqn:E; cbn [rbind].
    + assert (¬ ∃ e, Ok o = Raise e) as Hno by (by intros [e He]).
      destruct (read_operations lines) as [ops'|e'] eqn:E'; cbn [rbind].
      * destruct (proj1 (IH ops') eq_refl) as [Hall ->].
        destruct o as [r|]; (split; [intros [= <-]; by repeat split|]);
          by intros [_ ->].
      * split; [done|]. intros [[_ Hall] ->].
        by pose proof (proj2 (IH _) (conj Hall eq_refl)).
    + split; [done|]. intros [[Hl _] _]. destruct Hl. eauto.
Qed.

(** X5: the records read from a log are the records of its lines, in
    the order of the lines, the lines without a record left out; they
    are obtained exactly when no line makes the parser raise. *)
Theorem read_operations_records (lines : list string) (ops : list Op.record) :
  read_operations lines = Ok ops ↔
  Forall (λ line, ¬ raises line) lines ∧ ops = omap record_of lines.
Proof. apply read_operations_omap. Qed.

Lemma read_operations_records_witness :
  ∃ r, read_operations [wrong_bracket_line; example_line; ""] = Ok [r] ∧
       record_of example_line = Some r.
Proof.
  eexists. split; [|vm_compute; reflexivity].
  apply read_operations_records. split; [|vm_compute; reflexivity].
  repeat (apply Forall_cons_2; [intros [e He]; by vm_compute in He|]).
  apply Forall_nil_2.
Defined.






End record_stream.

(** * Further properties of the classifier *)

Section classifier_counts.

(** Whenever the classifier returns, its counters are those of the
    transitions of the grouping. *)
Lemma analyze_access_pattern_Some ops r :
  analyze_access_pattern ops = Some r →
  let io_ops := filter (λ op, is_io_op op = true) ops in
  ((length io_ops < 2)%nat ∧ r = empty_result insufficient_data) ∨
  ((2 ≤ length io_ops)%nat ∧
   ∃ g, group_by_inode io_ops [] = Some g ∧ grouped io_ops g ∧
        Forall pair_ok (all_transitions g) ∧
        r = classify_counters (counters_of (all_transitions g))).
Proof.
  intros H io_ops. unfold analyze_access_pattern in H. fold io_ops in H.
  destruct (Nat.ltb_spec (length io_ops) 2) as [Hlen|Hlen].
  - left. split; [done|]. by injection H.
  - right. split; [done|].
    destruct (group_by_inode io_ops []) as [g|] eqn:Hg; [|done].
    exists g. simpl in H. rewrite analyze_groups_general in H.
    destruct (decide (Forall pair_ok (all_transitions g))); [|done].
    simpl in H. rewrite counters_add_0_l in H. injection H as <-.
    split; [done|]. split; [|done]. by apply group_by_inode_grouped.
Qed.








End classifier_counts.

Section transition_count.

Lemma group_append_size k op g :
  grouped_size (group_append k op g) = S (grouped_size g).
Proof.
  unfold grouped_size. induction g as [|[k' v] g IH]; [done|].
  cbn [group_append]. destruct (decide (k = k')).
  - rewrite !fmap_cons. cbn [snd sum_list]. rewrite length_app. simpl. lia.
  - rewrite !fmap_cons. cbn [snd sum_list]. rewrite IH. lia.
Qed.

Lemma group_append_nonempty k op g :
  Forall (λ e, e.2 ≠ []) g → Forall (λ e, e.2 ≠ []) (group_append k op g).
Proof.
  induction 1 as [|[k' v] g Hv Hg IH]; cbn [group_append].
  - by apply Forall_cons_2; [|apply Forall_nil_2].
  - destruct (decide (k = k')); apply Forall_cons_2; try done.
    simpl. by destruct v.
Qed.

Lemma group_by_inode_size rest acc g :
  group_by_inode rest acc = Some g →
  Forall (λ e, e.2 ≠ []) acc →
  grouped_size g = (grouped_size acc + length rest)%nat ∧
  Forall (λ e, e.2 ≠ []) g.
Proof.
  revert acc. induction rest as [|op rest IH]; intros acc H Hne.
  - injection H as <-. simpl. split; [lia|done].
  - simpl in H. destruct (Op.inode op) as [k|]; [|done]. simpl in H.
    destruct (IH _ H (group_append_nonempty k op _ Hne)) as [-> Hg].
    rewrite group_append_size. simpl. split; [lia|done].
Qed.

Lemma all_transitions_count g :
  Forall (λ e, e.2 ≠ []) g →
  (length (all_transitions g) + length g)%nat = grouped_size g.
Proof.
  unfold grouped_size. induction 1 as [|[k v] g Hv _ IH]; [done|].
  rewrite all_transitions_cons, length_app, consecutive_length,
    sort_by_timestamp_length, !fmap_cons.
  cbn [snd sum_list length]. simpl in Hv. destruct v; [done|]. simpl. lia.
Qed.

Lemma grouped_keys l g :
  grouped l g →
  Forall (λ op, is_Some (Op.inode op)) l →
  length g = size (list_to_set (omap Op.inode l) : gset pyval).
Proof.
  intros Hg Hall. rewrite <-(length_fmap fst g).
  rewrite <-(size_list_to_set (C:=gset pyval) g.*1) by apply Hg.
  f_equal. apply set_eq. intros k. rewrite !elem_of_list_to_set.
  rewrite (grouped_fst _ _ _ Hg), list_elem_of_omap. unfold members. split.
  - intros Hne.
    destruct (filter (λ op, Op.inode op = Some k) l) as [|op t] eqn:E;
      [done|].
    assert (op ∈ filter (λ op, Op.inode op = Some k) l) as Hop
      by (rewrite E; left).
    apply list_elem_of_filter in Hop as [? ?]. eauto.
  - intros (op & Hop & Hk) E.
    assert (op ∈ filter (λ op, Op.inode op = Some k) l) as Hin
      by by apply list_elem_of_filter.
    rewrite E in Hin. by apply elem_of_nil in Hin.
Qed.

(** X8: with at least two qualifying records, the number of
    transitions is the number of qualifying records minus the number
    of distinct inodes among them. *)
Theorem total_transitions_count (ops : list Op.record) (r : AccessAnalysis) :
  analyze_access_pattern ops = Some r →
  let io_ops := filter (λ op, is_io_op op = true) ops in
  (2 ≤ length io_ops)%nat →
  (total_transitions r
   + size (list_to_set (omap Op.inode io_ops) : gset pyval))%nat
  = length io_ops.
Proof.
  intros H io_ops Hlen.
  destruct (analyze_access_pattern_Some _ _ H)
    as [[Hlt _]|(_ & g & Hg & Hgr & _ & ->)];
    [fold io_ops in Hlt; lia|fold io_ops in Hg, Hgr].
  destruct (group_by_inode_size _ _ _ Hg) as [Hsize Hne]; [constructor|].
  rewrite <-(grouped_keys _ _ Hgr) by by eapply group_by_inode_Some.
  pose proof (all_transitions_count _ Hne) as Hc.
  pose proof (counters_of_total (all_transitions g)) as Ht.
  assert (total_transitions
            (classify_counters (counters_of (all_transitions g)))
          = length (all_transitions g)) as ->.
  { unfold classify_counters.
    destruct (Nat.eqb_spec
                (sequential_count (counters_of (all_transitions g))
                 + random_count (counters_of (all_transitions g))) 0);
      cbn [total_transitions empty_result]; lia. }
  change (grouped_size []) with 0%nat in Hsize. lia.
Qed.

Lemma total_transitions_count_witness :
  ∃ r, analyze_access_pattern [ex_r1; ex_other_inode; ex_r2; ex_r3] = Some r ∧
       (total_transitions r + 2)%nat = 4%nat.
Proof.
  eexists. split; [vm_compute; reflexivity|].
  apply (total_transitions_count [ex_r1; ex_other_inode; ex_r2; ex_r3]
           _ eq_refl).
  simpl. lia.
Defined.

End transition_count.

(** * The statistics of [analyze_log] *)

Section basic_stats.

Lemma sum_Z_app l1 l2 : sum_Z (l1 ++ l2) = sum_Z l1 + sum_Z l2.
Proof.
  unfold sum_Z. induction l1 as [|x l1 IH]; simpl; [done|]. rewrite IH. lia.
Qed.

Lemma basic_step_fields st op :
  total_read_bytes (basic_step st op)
  = total_read_bytes st + sum_Z (option_list (read_bytes op)) ∧
  total_write_bytes (basic_step st op)
  = total_write_bytes st + sum_Z (option_list (write_size op)) ∧
  read_sizes (basic_step st op) = read_sizes st ++ option_list (read_size op) ∧
  write_sizes (basic_step st op)
  = write_sizes st ++ option_list (write_size op) ∧
  inodes (basic_step st op)
  = list_to_set (option_list (Op.inode op)) ∪ inodes st.
Proof.
  unfold basic_step, read_bytes, read_size, write_size.
  destruct (String.eqb_spec (Op.operation op) "read") as [->|Hr];
    [change (String.eqb "read" "write") with false|];
    destruct (Op.size op) as [sz|];
    try destruct (String.eqb (Op.operation op) "write");
    destruct (Op.inode op) as [i|];
    cbn [total_read_bytes total_write_bytes read_sizes write_sizes inodes
         option_list mbind option_bind sum_Z foldr list_to_set];
    rewrite ?app_nil_r; repeat split; simpl; try lia;
    by rewrite ?union_empty_r_L, ?union_empty_l_L.
Qed.

Lemma basic_fold_fields ops st :
  total_read_bytes (foldl basic_step st ops)
  = total_read_bytes st + sum_Z (omap read_bytes ops) ∧
  total_write_bytes (foldl basic_step st ops)
  = total_write_bytes st + sum_Z (omap write_size ops) ∧
  read_sizes (foldl basic_step st ops) = read_sizes st ++ omap read_size ops ∧
  write_sizes (foldl basic_step st ops)
  = write_sizes st ++ omap write_size ops ∧
  inodes (foldl basic_step st ops)
  = list_to_set (omap Op.inode ops) ∪ inodes st.
Proof.
  revert st. induction ops as [|op ops IH]; intros st.
  - simpl. rewrite !app_nil_r. repeat split; try lia.
    by rewrite union_empty_l_L.
  - cbn [foldl]. destruct (IH (basic_step st op)) as (-> & -> & -> & -> & ->).
    destruct (basic_step_fields st op) as (-> & -> & -> & -> & ->).
    rewrite !omap_cons_option_list, !sum_Z_app, <-!app_assoc.
    rewrite list_to_set_app_L.
    repeat split; try lia.
    apply set_eq. intros x. rewrite !elem_of_union. tauto.
Qed.

(** X9: in a completed analysis, [read_sizes] and [write_sizes] are the
    sizes of the read and of the write records that have one, in input
    order; the written bytes are the sum of [write_sizes]; the read
    bytes are the sum of [bytes_read], or of the size where it is
    absent, over the same read records; and the inode count is the
    number of distinct values under the key ['inode']. *)
Theorem basic_stats_sums (lines : list string) (rep : Report) :
  analyze_log lines = Ok (Analyzed rep) →
  ∃ ops, read_operations lines = Ok ops ∧
    read_sizes (basic rep) = omap read_size ops ∧
    write_sizes (basic rep) = omap write_size ops ∧
    total_write_bytes (basic rep) = sum_Z (write_sizes (basic rep)) ∧
    total_read_bytes (basic rep) = sum_Z (omap read_bytes ops) ∧
    unique_inodes rep = size (list_to_set (omap Op.inode ops) : gset pyval).
Proof.
  unfold analyze_log. intros H.
  destruct (read_operations lines) as [ops|] eqn:Hops; [|done].
  cbn [rbind] in H. exists ops. split; [done|].
  destruct ops as [|op ops]; [done|]. cbv iota in H.
  remember (op :: ops) as l eqn:El. clear El.
  destruct (analyze_access_pattern l) as [a|]; [|done].
  destruct (seek_stats a) as [s|]; [|done]. injection H as <-.
  cbn [basic unique_inodes].
  match goal with
  | |- context [foldl basic_step ?st ?l] =>
      destruct (basic_fold_fields l st) as (-> & -> & -> & -> & ->)
  end.
  cbn [total_read_bytes total_write_bytes read_sizes write_sizes inodes].
  rewrite !app_nil_l, union_empty_r_L. repeat split; lia.
Qed.

Lemma basic_stats_sums_witness :
  ∃ rep, analyze_log [example_line; write_line; read_line_2]
         = Ok (Analyzed rep) ∧
         read_sizes (basic rep) = [4096; 4096] ∧
         write_sizes (basic rep) = [100] ∧
         total_write_bytes (basic rep) = 100 ∧
         total_read_bytes (basic rep) = 5096 ∧
         unique_inodes rep = 1%nat.
Proof.
  destruct (analyze_log [example_line; write_line; read_line_2])
    as [[|rep]|] eqn:H; [by vm_compute in H| |by vm_compute in H].
  exists rep. split; [done|].
  destruct (basic_stats_sums _ _ H) as (ops & Hops & -> & Hw & -> & -> & ->).
  rewrite Hw. vm_compute in Hops. injection Hops as <-.
  repeat split; vm_compute; reflexivity.
Defined.

End basic_stats.

Section handle_mean.






End handle_mean.

(** * [format_size] *)

Section format_size.

Lemma round_half_even_close q :
  (inject_Z (round_half_even q) - q <= 1 # 2)%Q ∧
  (q - inject_Z (round_half_even q) <= 1 # 2)%Q.
Proof.
  destruct q as [a b]. unfold round_half_even. cbn [Qnum Qden].
  pose proof (Z.div_mod a (Z.pos b) ltac:(lia)) as Hdm.
  pose proof (Z.mod_pos_bound a (Z.pos b) ltac:(lia)) as Hr.
  set (f := a / Z.pos b) in *. set (r := a mod Z.pos b) in *.
  clearbody f r.
  destruct (Z.compare_spec (2 * r) (Z.pos b)) as [E|E|E];
    [destruct (Z.even f)| |];
    unfold Qle, Qminus, Qplus, Qopp, inject_Z; cbn [Qnum Qden];
    rewrite ?Pos2Z.inj_mul; nia.
Qed.

(** The tests of the loop, on the quotients of an integer. *)
Ltac loop_test Hlo Hhi :=
  match goal with
  | |- context [Qle_bool 1024 ?q] =>
      let E := fresh "E" in
      destruct (Qle_bool 1024 q) eqn:E;
      [ apply Qle_bool_iff in E
      | assert (¬ (1024 <= q)%Q) as E'
          by (rewrite <-Qle_bool_iff; congruence); clear E ];
      unfold Qle, Qdiv, Qmult, Qinv, inject_Z in *; cbn [Qnum Qden] in *;
      try lia
  end.

(** X11: [format_size] names the unit by the thresholds 1024, 1024²,
    1024³ and 1024⁴, and prints before it a number of tenths that is
    the scaled size rounded to one decimal: it differs from
    size / 1024^k by at most 0.05. *)
Theorem format_size_spec (n : Z) (k : nat) :
  0 <= n < 2 ^ 53 → (k ≤ 4)%nat →
  (k ≠ 0%nat → 1024 ^ Z.of_nat k <= n) →
  (k ≠ 4%nat → n < 1024 ^ Z.of_nat (S k)) →
  ∃ d, format_size n = tenths d +:+ default "" (size_units !! k) ∧
       2 * Z.abs (10 * n - d * 1024 ^ Z.of_nat k) <= 1024 ^ Z.of_nat k.
Proof.
  intros Hn Hk Hlo Hhi.
  assert (k = 0 ∨ k = 1 ∨ k = 2 ∨ k = 3 ∨ k = 4)%nat
    as [->|[->|[->|[->| ->]]]] by lia;
    (specialize (Hlo ltac:(lia)) || clear Hlo);
    (specialize (Hhi ltac:(lia)) || clear Hhi);
    cbn in Hlo || idtac; cbn in Hhi || idtac;
    unfold format_size; cbn [format_loop].
  all: repeat (loop_test Hlo Hhi).
  all: match goal with
       | |- context [fmt1 ?q] =>
           exists (round_half_even (q * 10));
           destruct (round_half_even_close (q * 10)) as [H1 H2];
           split;
           [ unfold fmt1;
             assert (Qle_bool 0 q = true) as ->
               by (apply Qle_bool_iff; unfold Qle, Qdiv, Qmult, Qinv, inject_Z;
                   cbn [Qnum Qden]; lia);
             reflexivity
           | set (d := round_half_even (q * 10)) in *; clearbody d;
             unfold Qle, Qminus, Qplus, Qopp, Qdiv, Qmult, Qinv, inject_Z
               in H1, H2;
             cbn [Qnum Qden] in H1, H2; cbn; lia ]
       end.
Qed.

Lemma format_size_spec_witness :
  ∃ d, format_size 1048576 = tenths d +:+ "MB" ∧
       2 * Z.abs (10 * 1048576 - d * 1048576) <= 1048576.
Proof. apply (format_size_spec 1048576 2); [lia|lia| |]; cbn; lia. Defined.

End format_size.

(** * The size distribution *)

Section size_distribution.

Lemma blookup_bump l' l d :
  blookup l' (bump l d) =
  if decide (l' = l) then Some (S (default 0%nat (blookup l d)))
  else blookup l' d.
Proof.
  induction d as [|[l0 c0] d IH]; simpl.
  - by repeat case_decide.
  - destruct (decide (l = l0)) as [->|Hne]; simpl.
    + by repeat case_decide.
    + rewrite IH. repeat case_decide; by simplify_eq.
Qed.

Lemma bump_fst l d :
  (bump l d).*1 = if decide (l ∈ d.*1) then d.*1 else d.*1 ++ [l].
Proof.
  induction d as [|[l0 c0] d IH]; [done|].
  cbn [bump]. destruct (decide (l = l0)) as [->|Hne].
  - rewrite !fmap_cons. cbn [fst]. rewrite decide_True by left. done.
  - rewrite !fmap_cons, IH. cbn [fst]. destruct (decide (l ∈ d.*1)).
    + rewrite decide_True by (by right). done.
    + rewrite decide_False; [done|]. by intros [?|?]%elem_of_cons.
Qed.

Lemma bump_NoDup l d : NoDup d.*1 → NoDup (bump l d).*1.
Proof.
  intros H. rewrite bump_fst. case_decide as Hl; [done|].
  apply NoDup_app. split; [done|]. split; [|apply NoDup_singleton].
  intros x Hx ->%list_elem_of_singleton. done.
Qed.

Lemma bucket_count_cons l s sizes :
  bucket_count l (s :: sizes) =
  ((if decide (bucket_label s = l) then 1 else 0) + bucket_count l sizes)%nat.
Proof. unfold bucket_count. rewrite filter_cons. by case_decide. Qed.

Lemma size_buckets_fold sizes d l :
  NoDup d.*1 →
  NoDup (foldl (λ d size, bump (bucket_label size) d) d sizes).*1 ∧
  blookup l (foldl (λ d size, bump (bucket_label size) d) d sizes) =
  match blookup l d with
  | Some m => Some (m + bucket_count l sizes)%nat
  | None => if decide (bucket_count l sizes = 0%nat) then None
            else Some (bucket_count l sizes)
  end.
Proof.
  revert d. induction sizes as [|s sizes IH]; intros d Hnd.
  - simpl. split; [done|]. unfold bucket_count. simpl.
    destruct (blookup l d); [|done]. f_equal. lia.
  - cbn [foldl].
    destruct (IH (bump (bucket_label s) d) (bump_NoDup _ _ Hnd)) as [H1 ->].
    split; [done|]. rewrite blookup_bump, bucket_count_cons.
    destruct (decide (l = bucket_label s)) as [->|Hne].
    + rewrite decide_True by done. destruct (blookup (bucket_label s) d);
        simpl; [f_equal; lia|done].
    + rewrite !(decide_False (P:=bucket_label s = l)) by congruence.
      by destruct (blookup l d).
Qed.

Lemma blookup_elem l c d : NoDup d.*1 → (l, c) ∈ d ↔ blookup l d = Some c.
Proof.
  induction d as [|[l0 c0] d IH]; intros Hnd.
  - split; [by intros ?%elem_of_nil|done].
  - rewrite fmap_cons in Hnd. apply NoDup_cons in Hnd as [Hl0 Hnd].
    simpl. rewrite elem_of_cons. case_decide as E.
    + subst. split; [|intros [= ->]; by left].
      intros [[= ->]|Hin]; [done|]. destruct Hl0.
      apply list_elem_of_fmap. by exists (l0, c).
    + rewrite <-(IH Hnd). split; [|by right]. by intros [[= ? ?]|?].
Qed.

Lemma size_buckets_elem l c sizes :
  (l, c) ∈ size_buckets sizes ↔
  c = bucket_count l sizes ∧ (0 < c)%nat.
Proof.
  destruct (size_buckets_fold sizes [] l) as [Hnd Hl]; [constructor|].
  unfold size_buckets. rewrite (blookup_elem _ _ _ Hnd), Hl. simpl.
  case_decide; split; [done|lia|intros [= <-]; lia|by intros [-> _]].
Qed.

Lemma bucket_label_in s : bucket_label s ∈ bucket_labels.
Proof.
  unfold bucket_label.
  repeat (destruct (_ <=? _); [compute_done|]). compute_done.
Qed.

Lemma bucket_count_pos l sizes :
  (0 < bucket_count l sizes)%nat → l ∈ bucket_labels.
Proof.
  unfold bucket_count. intros H.
  destruct (filter (λ size, bucket_label size = l) sizes) as [|s t] eqn:E;
    [simpl in H; lia|].
  assert (s ∈ filter (λ size, bucket_label size = l) sizes) as Hs
    by (rewrite E; left).
  apply list_elem_of_filter in Hs as [<- _]. apply bucket_label_in.
Qed.

Lemma expected_rows_elem l c sizes :
  (l, c) ∈ expected_rows sizes ↔
  l ∈ bucket_labels ∧ c = bucket_count l sizes ∧ (0 < c)%nat.
Proof.
  unfold expected_rows. rewrite list_elem_of_omap. split.
  - intros (l' & Hl' & H). cbv zeta in H.
    case_decide; [done|]. injection H as <- <-. repeat split; [done|lia].
  - intros (Hl & -> & Hc). exists l. split; [done|]. cbv zeta.
    rewrite decide_False by lia. done.
Qed.

Lemma expected_rows_fst_sublist (c : string → nat) (L : list string) :
  (omap (λ l, if decide (c l = 0%nat) then None else Some (l, c l)) L).*1
  `sublist_of` L.
Proof.
  induction L as [|l L IH]; [done|]. simpl.
  case_decide; [by apply sublist_cons|].
  rewrite fmap_cons. by apply sublist_skip.
Qed.

Lemma expected_rows_NoDup sizes : NoDup (expected_rows sizes).*1.
Proof.
  apply (sublist_NoDup _ bucket_labels); [compute_done|].
  apply (expected_rows_fst_sublist (λ l, bucket_count l sizes)).
Qed.

Lemma size_buckets_perm sizes : size_buckets sizes ≡ₚ expected_rows sizes.
Proof.
  destruct (size_buckets_fold sizes [] "") as [Hnd _]; [constructor|].
  apply NoDup_Permutation.
  - by eapply NoDup_fmap_1.
  - eapply NoDup_fmap_1, expected_rows_NoDup.
  - intros [l c]. rewrite size_buckets_elem, expected_rows_elem.
    split; [|tauto]. intros [-> Hc]. repeat split; [|done].
    by apply (bucket_count_pos l sizes).
Qed.

End size_distribution.

Section sorted_rows.

Lemma index_of_elem x L : x ∈ L → is_Some (index_of x L).
Proof.
  induction L as [|l L IH]; [by intros ?%elem_of_nil|].
  intros Hx. simpl. case_decide as E; [eauto|].
  apply elem_of_cons in Hx as [?|Hx]; [done|].
  destruct (IH Hx) as [i ->]. simpl. eauto.
Qed.

Lemma index_of_inj a b L i :
  index_of a L = Some i → index_of b L = Some i → a = b.
Proof.
  revert i. induction L as [|l L IH]; intros i; [done|]. simpl.
  destruct (decide (a = l)) as [->|Ha], (decide (b = l)) as [->|Hb];
    try done.
  - intros [= <-]. by destruct (index_of b L).
  - destruct (index_of a L); [|done]. by intros [= <-] [= ?].
  - destruct (index_of a L) as [j|] eqn:Ea; [|done].
    destruct (index_of b L) as [j'|] eqn:Eb; [|done].
    simpl. intros [= <-] [= ->]. by eapply IH.
Qed.

Lemma mapM_row_key d :
  Forall (λ e, e.1 ∈ bucket_labels) d →
  mapM (λ e, i ← index_of e.1 bucket_labels; Some (i, e)) d
  = Some (row_key <$> d).
Proof.
  intros Hd. apply mapM_Some. apply Forall2_fmap_r, Forall_Forall2_diag.
  eapply Forall_impl; [exact Hd|]. intros e He. unfold row_key, compose.
  cbv beta in He. by destruct (index_of_elem _ _ He) as [i ->].
Qed.

Lemma insert_keyed_perm {A} (x : nat * A) l : insert_keyed x l ≡ₚ x :: l.
Proof.
  induction l as [|y l IH]; [done|]. simpl.
  destruct (_ <=? _)%nat; [done|]. by rewrite IH, Permutation_swap.
Qed.

Lemma sort_keyed_perm {A} (l : list (nat * A)) : sort_keyed l ≡ₚ l.
Proof.
  induction l as [|x l IH]; [done|]. simpl.
  by rewrite insert_keyed_perm, IH.
Qed.

Lemma insert_keyed_sorted {A} (x : nat * A) l :
  Sorted key_le l → Sorted key_le (insert_keyed x l).
Proof.
  induction 1 as [|y l Hs IH Hhd]; simpl; [by repeat constructor|].
  destruct (Nat.leb_spec x.1 y.1) as [E|E].
  - constructor; [by constructor|]. by constructor.
  - constructor; [done|].
    destruct l as [|z l]; simpl; [constructor; unfold key_le; lia|].
    destruct (_ <=? _)%nat; constructor; [unfold key_le; lia|].
    by inversion Hhd.
Qed.

Lemma sort_keyed_sorted {A} (l : list (nat * A)) : Sorted key_le (sort_keyed l).
Proof.
  induction l as [|x l IH]; [constructor|]. by apply insert_keyed_sorted.
Qed.

Global Instance key_le_trans {A} : Transitive (@key_le A).
Proof. intros a b c. unfold key_le. lia. Qed.

Lemma expected_rows_sorted sizes :
  Sorted key_le (row_key <$> expected_rows sizes).
Proof.
  unfold expected_rows, bucket_labels. cbn [omap list_omap].
  repeat (destruct (decide (_ = 0%nat)));
    repeat (first [apply Sorted_nil
                  | apply Sorted_cons; [|first [apply HdRel_nil
                       | apply HdRel_cons; vm_compute; lia]]]).
Qed.

Lemma sort_expected_rows sizes :
  (sort_keyed (row_key <$> size_buckets sizes)).*2 = expected_rows sizes.
Proof.
  assert (sort_keyed (row_key <$> size_buckets sizes)
          = row_key <$> expected_rows sizes) as ->.
  { apply (Sorted_unique_strong key_le).
    - intros x y Hx Hy Hxy Hyx.
      rewrite sort_keyed_perm, size_buckets_perm in Hx.
      apply list_elem_of_fmap in Hx as ([l c] & -> & Hx).
      apply list_elem_of_fmap in Hy as ([l' c'] & -> & Hy).
      apply expected_rows_elem in Hx as (Hl & -> & _).
      apply expected_rows_elem in Hy as (Hl' & -> & _).
      unfold key_le, row_key in Hxy, Hyx. cbn [fst snd] in Hxy, Hyx.
      destruct (index_of_elem _ _ Hl) as [i Hi].
      destruct (index_of_elem _ _ Hl') as [i' Hi'].
      rewrite Hi, Hi' in Hxy, Hyx. simpl in Hxy, Hyx.
      assert (i = i') as -> by lia.
      by rewrite (index_of_inj _ _ _ _ Hi Hi').
    - apply sort_keyed_sorted.
    - apply expected_rows_sorted.
    - by rewrite sort_keyed_perm, size_buckets_perm. }
  rewrite <-list_fmap_compose. apply list_fmap_id.
Qed.

Lemma bucket_count_total sizes :
  sum_list ((λ l, bucket_count l sizes) <$> bucket_labels) = length sizes.
Proof.
  induction sizes as [|s sizes IH]; [done|].
  unfold bucket_labels in *. cbn [fmap list_fmap sum_list] in *.
  rewrite !bucket_count_cons. simpl. rewrite <-IH.
  unfold bucket_label, id.
  repeat (destruct (_ <=? _)%Z;
          [repeat case_decide; try discriminate; try congruence; lia|]).
  repeat case_decide; try discriminate; try congruence; lia.
Qed.

Lemma expected_rows_sum (c : string → nat) (L : list string) :
  sum_list
    (omap (λ l, if decide (c l = 0%nat) then None else Some (l, c l)) L).*2
  = sum_list (c <$> L).
Proof.
  induction L as [|l L IH]; [done|]. simpl.
  case_decide as E; [rewrite E; simpl; exact IH|].
  rewrite fmap_cons. simpl. f_equal. exact IH.
Qed.

(** X12: the sort of a size table never fails on a label: the rows
    are the non-empty buckets in the fixed order of the labels, each
    with the number of sizes that fall into it and that number's
    percentage, and the counts of the rows add up to the number of
    sizes. *)
Theorem size_distribution_rows (sizes : list Z) :
  size_distribution sizes
  = Some ((λ row : string * nat,
             (row.1, row.2, percentage row.2 (length sizes)))
            <$> expected_rows sizes) ∧
  sum_list (expected_rows sizes).*2 = length sizes.
Proof.
  split.
  - unfold size_distribution, sorted_buckets. rewrite mapM_row_key.
    + simpl. by rewrite sort_expected_rows.
    + apply Forall_forall. intros [l c] [-> Hc]%size_buckets_elem.
      by apply (bucket_count_pos _ sizes).
  - rewrite <-bucket_count_total.
    apply (expected_rows_sum (λ l, bucket_count l sizes)).
Qed.

End sorted_rows.
